(** * gravity-transmitter-postgres: the writer package

    A shallow embedding of the Go package [writer]: the translation of a
    change record into a parametrised SQL statement ([GetDefinition],
    [InsertRecord], [UpdateRecord], [DeleteRecord], [ProcessData]) and the
    transactional batch writer ([processData]).

    Conventions of the embedding.
    - Go strings are byte strings: [string].
    - A Go [map[string]interface{}] is a [gmap string GoValue].
    - A Go [error] is [option string]: [None] is [nil], [Some msg] is
      [errors.New(msg)].
    - The channel [writer.commands] is the list of the commands sent on it,
      oldest first; a send appends at the end.  Blocking on a full channel is
      a matter of scheduling and is not part of the model.
    - Logging calls have no effect on any value and are left out. *)

From stdpp Require Import gmap strings list pretty.

(** String concatenation unfolds on a literal prefix. *)
#[local] Arguments String.append !_ _ / : simpl nomatch.

(** ** Go library functions used by the package *)

(** The double quote character, which the SQL templates put around
    identifiers. *)
Definition dq : string := String (Ascii.ascii_of_nat 34) EmptyString.

(** A format string, cut at its verbs.  The package only uses [%s]. *)
Inductive Verb : Type :=
| Lit (s : string)
| Verb_s.

(** [fmt.Sprintf] for string operands.  A verb that has no operand left
    prints as Go prints it. *)
Fixpoint Sprintf (format : list Verb) (a : list string) : string :=
  match format with
  | [] => EmptyString
  | Lit s :: format' => s +:+ Sprintf format' a
  | Verb_s :: format' =>
      match a with
      | [] => "%!s(MISSING)" +:+ Sprintf format' []
      | x :: a' => x +:+ Sprintf format' a'
      end
  end.

(** [strconv.Itoa]: the decimal rendering of an [int]. *)
Definition Itoa (i : Z) : string := pretty i.

(** [strings.Join]. *)
Fixpoint Join (elems : list string) (sep : string) : string :=
  match elems with
  | [] => EmptyString
  | [x] => x
  | x :: rest => x +:+ sep +:+ Join rest sep
  end.

(** Go's [error] values. *)
Definition error : Type := option string.

(** ** The SQL templates (lines 19-23) *)

Definition UpdateTemplate : list Verb :=
  [Lit ("UPDATE " +:+ dq); Verb_s; Lit (dq +:+ " SET "); Verb_s;
   Lit (" WHERE " +:+ dq); Verb_s; Lit (dq +:+ " = :primary_val")].

Definition InsertTemplate : list Verb :=
  [Lit ("INSERT INTO " +:+ dq); Verb_s; Lit (dq +:+ " ("); Verb_s;
   Lit ") VALUES ("; Verb_s; Lit ")"].

Definition DeleteTemplate : list Verb :=
  [Lit ("DELETE FROM " +:+ dq); Verb_s; Lit (dq +:+ " WHERE " +:+ dq); Verb_s;
   Lit (dq +:+ " = :primary_val")].

(** ** The record types of the SDK *)

(** Modelled from the spec: the [Method] enumeration is declared in the record
    SDK, which is not part of the sources.  The spec names the three methods
    INSERT, UPDATE and DELETE and speaks of any other method value; the
    enumeration is an [int32] in Go, so a fourth constructor carries every
    value that is none of the three. *)
Inductive Method : Type :=
| Method_INSERT
| Method_UPDATE
| Method_DELETE
| Method_other (code : Z).

Section Writer.

(** The SDK's encoded value ([*record.Value]), the decoded Go value that
    [record.GetValue] returns for it, and the caller's reference
    ([interface{}]).  The decoder belongs to the SDK and is a parameter. *)
Context {ProtoValue GoValue Ref : Type}.
Variable GetValue : ProtoValue → GoValue.

Record Field : Type := mkField {
  Name : string;
  Value : ProtoValue
}.

Record Record : Type := mkRecord {
  Method_ : Method;
  Table : string;
  Fields : list Field;
  PrimaryKey : string
}.

Record ColumnDef : Type := mkColumnDef {
  ColumnName : string;
  ColumnDef_Value : string;
  BindingName : string
}.

Record RecordDef : Type := mkRecordDef {
  HasPrimary : bool;
  PrimaryColumn : string;
  Values : gmap string GoValue;
  ColumnDefs : list ColumnDef
}.

Record DBCommand : Type := mkDBCommand {
  Reference : Ref;
  DBCommand_Record : Record;
  QueryStr : string;
  Args : gmap string GoValue
}.

(** ** GetDefinition (lines 208-251) *)

(** The record definition allocated before the scan. *)
Definition newRecordDef : RecordDef :=
  {| HasPrimary := false; PrimaryColumn := EmptyString;
     Values := ∅; ColumnDefs := [] |}.

(** One iteration of the scanning loop, at index [n]. *)
Definition scanField (record : Record) (recordDef : RecordDef)
    (n : nat) (field : Field) : RecordDef :=
  let value := GetValue (Value field) in
  if decide (PrimaryKey record = Name field) then
    {| HasPrimary := true;
       PrimaryColumn := Name field;
       Values := <["primary_val" := value]> (Values recordDef);
       ColumnDefs := ColumnDefs recordDef |}
  else
    let bindingName := Sprintf [Lit "val_"; Verb_s] [Itoa (Z.of_nat n)] in
    {| HasPrimary := HasPrimary recordDef;
       PrimaryColumn := PrimaryColumn recordDef;
       Values := <[bindingName := value]> (Values recordDef);
       ColumnDefs := ColumnDefs recordDef ++
         [ {| ColumnName := Name field;
              ColumnDef_Value := Name field;
              BindingName := bindingName |} ] |}.

(** [for n, field := range record.Fields], started at index [n]. *)
Fixpoint scanFields (record : Record) (n : nat) (fields : list Field)
    (recordDef : RecordDef) : RecordDef :=
  match fields with
  | [] => recordDef
  | field :: rest =>
      scanFields record (S n) rest (scanField record recordDef n field)
  end.

Definition GetDefinition (record : Record) : option RecordDef * error :=
  let recordDef := scanFields record 0 (Fields record) newRecordDef in
  if (0 <? String.length (PrimaryKey record))%nat && negb (HasPrimary recordDef)
  then (None, Some "Not found primary key")
  else (Some recordDef, None).

(** ** insert and update (lines 316-373) *)

(** A send on [writer.commands]. *)
Definition send (commands : list DBCommand) (cmd : DBCommand) : list DBCommand :=
  commands ++ [cmd].

Definition insert (reference : Ref) (record : Record) (table : string)
    (recordDef : RecordDef) (commands : list DBCommand) : error * list DBCommand :=
  let colNames :=
    (if HasPrimary recordDef then [dq +:+ PrimaryColumn recordDef +:+ dq] else [])
    ++ map (λ def, dq +:+ ColumnName def +:+ dq) (ColumnDefs recordDef) in
  let valNames :=
    (if HasPrimary recordDef then [":primary_val"] else [])
    ++ map (λ def, ":" +:+ BindingName def) (ColumnDefs recordDef) in
  let colsStr := Join colNames "," in
  let valsStr := Join valNames "," in
  let insertStr := Sprintf InsertTemplate [table; colsStr; valsStr] in
  (None,
   send commands
     {| Reference := reference; DBCommand_Record := record;
        QueryStr := insertStr; Args := Values recordDef |}).

Definition update (reference : Ref) (record : Record) (table : string)
    (recordDef : RecordDef) (commands : list DBCommand)
    : bool * error * list DBCommand :=
  let updates :=
    map (λ def, dq +:+ ColumnName def +:+ dq +:+ " = :" +:+ BindingName def)
        (ColumnDefs recordDef) in
  let updateStr := Join updates "," in
  let sqlStr :=
    Sprintf UpdateTemplate [table; updateStr; PrimaryColumn recordDef] in
  (false, None,
   send commands
     {| Reference := reference; DBCommand_Record := record;
        QueryStr := sqlStr; Args := Values recordDef |}).

(** ** InsertRecord, UpdateRecord, DeleteRecord (lines 253-314) *)

Definition InsertRecord (reference : Ref) (record : Record)
    (commands : list DBCommand) : error * list DBCommand :=
  match GetDefinition record with
  | (_, Some err) => (Some err, commands)
  | (None, None) => (None, commands)
  | (Some recordDef, None) =>
      insert reference record (Table record) recordDef commands
  end.

Definition UpdateRecord (reference : Ref) (record : Record)
    (commands : list DBCommand) : error * list DBCommand :=
  match GetDefinition record with
  | (_, Some err) => (Some err, commands)
  | (None, None) => (None, commands)
  | (Some recordDef, None) =>
      if negb (HasPrimary recordDef) then (None, commands)
      else
        match update reference record (Table record) recordDef commands with
        | (_, Some err, commands') => (Some err, commands')
        | (_, None, commands') => (None, commands')
        end
  end.

(** The loop of [DeleteRecord]: the first field named as the primary key
    sends the command and breaks. *)
Fixpoint deleteScan (reference : Ref) (record : Record) (fields : list Field)
    (commands : list DBCommand) : list DBCommand :=
  match fields with
  | [] => commands
  | field :: rest =>
      if decide (PrimaryKey record = Name field) then
        let value := GetValue (Value field) in
        let sqlStr := Sprintf DeleteTemplate [Table record; Name field] in
        send commands
          {| Reference := reference; DBCommand_Record := record;
             QueryStr := sqlStr; Args := {[ "primary_val" := value ]} |}
      else deleteScan reference record rest commands
  end.

Definition DeleteRecord (reference : Ref) (record : Record)
    (commands : list DBCommand) : error * list DBCommand :=
  if decide (PrimaryKey record = EmptyString) then (None, commands)
  else (None, deleteScan reference record (Fields record) commands).

(** ** ProcessData (lines 188-206) *)

Definition ProcessData (reference : Ref) (record : Record)
    (commands : list DBCommand) : error * list DBCommand :=
  match Method_ record with
  | Method_DELETE => DeleteRecord reference record commands
  | Method_UPDATE => UpdateRecord reference record commands
  | Method_INSERT => InsertRecord reference record commands
  | Method_other _ => (None, commands)
  end.

(** ** The batch writer: processData (lines 124-172)

    The database is outside the program.  Its answers are given as a script:
    the replies to the successive [Beginx], [NamedExec] and [Commit] calls,
    in the order of the calls.  The result of [Rollback] is not read by the
    code and takes no reply.  What the writer does is recorded as a trace of
    events, oldest first. *)

(** The error result of a database call: [nil] or an error. *)
Inductive Reply : Type :=
| Ok
| Fail.

(** The [*sqlx.Tx] held in [tx].  [Beginx] returns a nil handle together
    with its error, and a live handle otherwise.  [Rollback] is a method of
    the [*sql.Tx] embedded in the handle: called through a nil handle it
    dereferences nil, and the goroutine panics. *)
Inductive TxHandle : Type :=
| TxNil
| TxLive.

Definition Beginx_handle (r : Reply) : TxHandle :=
  match r with
  | Ok => TxLive
  | Fail => TxNil
  end.

Inductive Event : Type :=
| EvBeginx (r : Reply)
| EvNamedExec (cmd : DBCommand) (r : Reply)
| EvCommit (r : Reply)
| EvRollback (tx : TxHandle)
| EvAfter5s
| EvCompletion (cmd : DBCommand).

(** How the inner loop over the commands ends. *)
Inductive ExecResult : Type :=
| ExecDone
| ExecGotoLOOP
| ExecNoReply.

(** [for _, cmd := range dbCommands] inside a live transaction. *)
Fixpoint execCommands (dbCommands : list DBCommand) (script : list Reply)
    : list Event * ExecResult * list Reply :=
  match dbCommands with
  | [] => ([], ExecDone, script)
  | cmd :: rest =>
      match script with
      | [] => ([], ExecNoReply, [])
      | Ok :: script' =>
          let '(evs, res, script'') := execCommands rest script' in
          (EvNamedExec cmd Ok :: evs, res, script'')
      | Fail :: script' =>
          ([EvNamedExec cmd Fail; EvRollback TxLive; EvAfter5s],
           ExecGotoLOOP, script')
      end
  end.

(** How a run of [processData] ends: it returns, it panics on the nil
    transaction handle, or the database stops answering (the script is
    used up) and the writer stays blocked in a call. *)
Inductive Outcome : Type :=
| Returned
| PanicNilTx
| NoReply
| OutOfFuel.

Definition prepend (evs : list Event) (r : list Event * Outcome)
    : list Event * Outcome :=
  (evs ++ r.1, r.2).

(** The [for] loop with its label [LOOP]: [continue] and [goto LOOP] both
    start the next attempt at [Beginx], with [dbCommands] unchanged.  One unit
    of fuel is one attempt; the loop is left by [break] with outcome
    [Returned]. *)
Fixpoint writeLoop (fuel : nat) (dbCommands : list DBCommand)
    (script : list Reply) : list Event * Outcome :=
  match fuel with
  | O => ([], OutOfFuel)
  | S fuel' =>
      match script with
      | [] => ([], NoReply)
      | Fail :: script1 =>
          (* err != nil: tx.Rollback() on the handle that Beginx returned *)
          match Beginx_handle Fail with
          | TxNil => ([EvBeginx Fail; EvRollback TxNil], PanicNilTx)
          | TxLive =>
              prepend [EvBeginx Fail; EvRollback TxLive; EvAfter5s]
                      (writeLoop fuel' dbCommands script1)
          end
      | Ok :: script1 =>
          match execCommands dbCommands script1 with
          | (evs, ExecNoReply, _) => (EvBeginx Ok :: evs, NoReply)
          | (evs, ExecGotoLOOP, script2) =>
              prepend (EvBeginx Ok :: evs) (writeLoop fuel' dbCommands script2)
          | (evs, ExecDone, script2) =>
              (* err = tx.Commit() *)
              match script2 with
              | [] => (EvBeginx Ok :: evs, NoReply)
              | Ok :: _ => (EvBeginx Ok :: evs ++ [EvCommit Ok], Returned)
              | Fail :: script3 =>
                  prepend
                    (EvBeginx Ok :: evs ++
                       [EvCommit Fail; EvRollback TxLive; EvAfter5s])
                    (writeLoop fuel' dbCommands script3)
              end
          end
      end
  end.

(** The last loop of [processData], reached when the writer loop is left by
    [break]: the completion handler is called on every command. *)
Definition completeAll (dbCommands : list DBCommand)
    (r : list Event * Outcome) : list Event * Outcome :=
  match r with
  | (evs, Returned) => (evs ++ map EvCompletion dbCommands, Returned)
  | _ => r
  end.

(** [processData].  Every attempt reads at least one reply, so the length
    of the script bounds the number of attempts. *)
Definition processData (dbCommands : list DBCommand) (script : list Reply)
    : list Event * Outcome :=
  completeAll dbCommands (writeLoop (S (length script)) dbCommands script).

(** [chunkHandler] (lines 114-122) copies the chunk and passes it on. *)
Definition chunkHandler (chunk : list DBCommand) (script : list Reply)
    : list Event * Outcome :=
  let dbCommands := foldl (λ acc req, acc ++ [req]) [] chunk in
  processData dbCommands script.

End Writer.

Arguments Field : clear implicits.
Arguments Record : clear implicits.
Arguments RecordDef : clear implicits.
Arguments DBCommand : clear implicits.
Arguments Event : clear implicits.
Arguments EvBeginx {_ _ _} _.
Arguments EvCommit {_ _ _} _.
Arguments EvRollback {_ _ _} _.
Arguments EvAfter5s {_ _ _}.

(** ** The scenarios of the spec, on a small value type *)

Inductive SValue : Type :=
| SInt (i : Z)
| SStr (s : string).

Definition users_record (m : Method) (fields : list (Field SValue)) : Record SValue :=
  {| Method_ := m; Table := "users"; Fields := fields; PrimaryKey := "id" |}.

Definition field_id : Field SValue := {| Name := "id"; Value := SInt 7 |}.
Definition field_name : Field SValue := {| Name := "name"; Value := SStr "ann" |}.


(** ** Vocabulary of the statements *)

(** An identifier between double quotes. *)
Definition quoted (s : string) : string := dq +:+ s +:+ dq.

(** The fields that are not named as the primary key, each with its index in
    the field list; the list starts at index [n]. *)
Definition otherFields {ProtoValue : Type} (pk : string) (n : nat)
    (fields : list (Field ProtoValue)) : list (nat * Field ProtoValue) :=
  filter (λ p, pk ≠ Name p.2) (imap (λ i f, (n + i, f)) fields).

(** The fields that are named as the primary key. *)
Definition keyFields {ProtoValue : Type} (pk : string)
    (fields : list (Field ProtoValue)) : list (Field ProtoValue) :=
  filter (λ f, pk = Name f) fields.

(** The binding name of the field at index [n]. *)
Definition valName (n : nat) : string := "val_" +:+ Itoa (Z.of_nat n).

(** The events of commands executed without error, in their order. *)
Definition execOk {ProtoValue GoValue Ref : Type}
    (cmds : list (DBCommand ProtoValue GoValue Ref))
    : list (Event ProtoValue GoValue Ref) :=
  map (λ cmd, EvNamedExec cmd Ok) cmds.

(** The commands handed to the completion handler, in the order of the
    calls. *)
Definition completions {ProtoValue GoValue Ref : Type}
    (evs : list (Event ProtoValue GoValue Ref))
    : list (DBCommand ProtoValue GoValue Ref) :=
  omap (λ e, match e with EvCompletion cmd => Some cmd | _ => None end) evs.

(** An attempt on the chunk [cmds] that fails after a successful begin: the
    replies it reads, and its events up to the failing call.  Either the
    statement of some command fails after the statements before it went
    through, or every statement goes through and the commit fails. *)
Inductive FailedAttempt {ProtoValue GoValue Ref : Type}
    (cmds : list (DBCommand ProtoValue GoValue Ref))
    : list Reply → list (Event ProtoValue GoValue Ref) → Prop :=
| exec_error (pre : list (DBCommand ProtoValue GoValue Ref))
    (cmd : DBCommand ProtoValue GoValue Ref)
    (post : list (DBCommand ProtoValue GoValue Ref)) :
    cmds = pre ++ cmd :: post →
    FailedAttempt cmds
      (Ok :: replicate (length pre) Ok ++ [Fail])
      (EvBeginx Ok :: execOk pre ++ [EvNamedExec cmd Fail])
| commit_error :
    FailedAttempt cmds
      (Ok :: replicate (length cmds) Ok ++ [Fail])
      (EvBeginx Ok :: execOk cmds ++ [EvCommit Fail]).

(** The traces of the writer loop on the chunk [cmds], attempt by attempt. *)
Inductive LoopRun {ProtoValue GoValue Ref : Type}
    (cmds : list (DBCommand ProtoValue GoValue Ref))
    : list (Event ProtoValue GoValue Ref) → Outcome → Prop :=
| run_out_of_fuel : LoopRun cmds [] OutOfFuel
| run_begin_no_reply : LoopRun cmds [] NoReply
| run_begin_fail : LoopRun cmds [EvBeginx Fail; EvRollback TxNil] PanicNilTx
| run_no_reply (pre post : list (DBCommand ProtoValue GoValue Ref)) :
    cmds = pre ++ post →
    LoopRun cmds (EvBeginx Ok :: execOk pre) NoReply
| run_commit : LoopRun cmds (EvBeginx Ok :: execOk cmds ++ [EvCommit Ok]) Returned
| run_retry (replies : list Reply) (evs rest : list (Event ProtoValue GoValue Ref))
    (out : Outcome) :
    FailedAttempt cmds replies evs →
    LoopRun cmds rest out →
    LoopRun cmds (evs ++ [EvRollback TxLive; EvAfter5s] ++ rest) out.

(** The scenario chunk: the commands of a DELETE, an INSERT and an UPDATE on
    the table users. *)
Definition cmd_delete : DBCommand SValue SValue nat :=
  {| Reference := 0;
     DBCommand_Record := users_record Method_DELETE [field_id];
     QueryStr := "DELETE FROM " +:+ quoted "users" +:+ " WHERE " +:+
                 quoted "id" +:+ " = :primary_val";
     Args := {[ "primary_val" := SInt 7 ]} |}.

Definition cmd_insert : DBCommand SValue SValue nat :=
  {| Reference := 1;
     DBCommand_Record := users_record Method_INSERT [field_id; field_name];
     QueryStr := "INSERT INTO " +:+ quoted "users" +:+ " (" +:+
                 quoted "id" +:+ "," +:+ quoted "name" +:+
                 ") VALUES (:primary_val,:val_1)";
     Args := {[ "primary_val" := SInt 7; "val_1" := SStr "ann" ]} |}.

Definition cmd_update : DBCommand SValue SValue nat :=
  {| Reference := 2;
     DBCommand_Record := users_record Method_UPDATE [field_id; field_name];
     QueryStr := "UPDATE " +:+ quoted "users" +:+ " SET " +:+
                 quoted "name" +:+ " = :val_1 WHERE " +:+ quoted "id" +:+
                 " = :primary_val";
     Args := {[ "primary_val" := SInt 7; "val_1" := SStr "ann" ]} |}.

Definition chunk3 : list (DBCommand SValue SValue nat) :=
  [cmd_delete; cmd_insert; cmd_update].

(** ** The writer value and its completion handler (lines 34-62, 184-186)

    A completion handler is a Go function called for its effect on the
    embedding application.  The application is a state of type [App], and a
    handler is a transformer of that state. *)

Record DatabaseInfo : Type := mkDatabaseInfo {
  Host : string;
  Port : Z;
  Secure : bool;
  Username : string;
  Password : string;
  DbName : string
}.

(** The options that [NewWriter] gives to the buffered input. *)
Record BufferOptions : Type := mkBufferOptions {
  ChunkSize : Z;
  ChunkCount : Z;
  Timeout_ms : Z
}.

(** The writer.  [commands_cap] is the capacity of the channel [commands];
    the database handle [db] is nil until [Init] and is left out, and of the
    buffered input the options are kept. *)
Record Writer (ProtoValue GoValue Ref App : Type) : Type := mkWriter {
  dbInfo : DatabaseInfo;
  commands_cap : Z;
  commands : list (DBCommand ProtoValue GoValue Ref);
  completionHandler : DBCommand ProtoValue GoValue Ref → App → App;
  buffer : BufferOptions;
  tmpQueryStr : string;
  handleQueryStr : string
}.

Arguments dbInfo {_ _ _ _} _.
Arguments commands_cap {_ _ _ _} _.
Arguments commands {_ _ _ _} _.
Arguments completionHandler {_ _ _ _} _.
Arguments buffer {_ _ _ _} _.
Arguments tmpQueryStr {_ _ _ _} _.
Arguments handleQueryStr {_ _ _ _} _.

Definition NewWriter {ProtoValue GoValue Ref App : Type}
    : Writer ProtoValue GoValue Ref App :=
  {| dbInfo := {| Host := EmptyString; Port := 0; Secure := false;
                  Username := EmptyString; Password := EmptyString;
                  DbName := EmptyString |};
     commands_cap := 2048;
     commands := [];
     completionHandler := λ _ app, app;
     buffer := {| ChunkSize := 100; ChunkCount := 10000; Timeout_ms := 50 |};
     tmpQueryStr := EmptyString;
     handleQueryStr := EmptyString |}.

Definition SetCompletionHandler {ProtoValue GoValue Ref App : Type}
    (fn : DBCommand ProtoValue GoValue Ref → App → App)
    (writer : Writer ProtoValue GoValue Ref App)
    : Writer ProtoValue GoValue Ref App :=
  {| dbInfo := dbInfo writer;
     commands_cap := commands_cap writer;
     commands := commands writer;
     completionHandler := fn;
     buffer := buffer writer;
     tmpQueryStr := tmpQueryStr writer;
     handleQueryStr := handleQueryStr writer |}.

(** The calls [writer.completionHandler(database.DBCommand(cmd))] of a run
    (lines 169-171), applied to the application in the order of the calls. *)
Definition handleCompletions {ProtoValue GoValue Ref App : Type}
    (writer : Writer ProtoValue GoValue Ref App)
    (run : list (Event ProtoValue GoValue Ref) * Outcome) (app : App) : App :=
  foldl (λ app cmd, completionHandler writer cmd app) app (completions run.1).

(** ** The transmitter service (service.go, lines 30-44) *)



(** ** More vocabulary *)

(** A record in which two fields bear the key: id=7, then id=8. *)
Definition field_id8 : Field SValue := {| Name := "id"; Value := SInt 8 |}.

(** The methods whose path goes through [GetDefinition]. *)
Definition usesGetDefinition (m : Method) : bool :=
  match m with
  | Method_INSERT | Method_UPDATE => true
  | Method_DELETE | Method_other _ => false
  end.

(** A record with its method replaced. *)
Definition withMethod {ProtoValue : Type} (m : Method)
    (record : Record ProtoValue) : Record ProtoValue :=
  {| Method_ := m; Table := Table record; Fields := Fields record;
     PrimaryKey := PrimaryKey record |}.

(** The command in an event, for the events that carry one. *)
Definition eventCommand {ProtoValue GoValue Ref : Type}
    (e : Event ProtoValue GoValue Ref)
    : option (DBCommand ProtoValue GoValue Ref) :=
  match e with
  | EvNamedExec cmd _ | EvCompletion cmd => Some cmd
  | _ => None
  end.

(** A statement or a commit that the database refused. *)
Definition isFailure {ProtoValue GoValue Ref : Type}
    (e : Event ProtoValue GoValue Ref) : bool :=
  match e with
  | EvNamedExec _ Fail | EvCommit Fail => true
  | _ => false
  end.

Definition isRollback {ProtoValue GoValue Ref : Type}
    (e : Event ProtoValue GoValue Ref) : bool :=
  match e with
  | EvRollback TxLive => true
  | _ => false
  end.

Definition isAfter5s {ProtoValue GoValue Ref : Type}
    (e : Event ProtoValue GoValue Ref) : bool :=
  match e with
  | EvAfter5s => true
  | _ => false
  end.

Definition isCommitOk {ProtoValue GoValue Ref : Type}
    (e : Event ProtoValue GoValue Ref) : bool :=
  match e with
  | EvCommit Ok => true
  | _ => false
  end.

(** How many events of a trace satisfy a test. *)
Definition countEvents {ProtoValue GoValue Ref : Type}
    (test : Event ProtoValue GoValue Ref → bool)
    (evs : list (Event ProtoValue GoValue Ref)) : nat :=
  length (List.filter test evs).

(** The UPDATE command that [update] builds for a record. *)
Definition updateCommand {ProtoValue GoValue Ref : Type}
    (GetValue : ProtoValue → GoValue) (reference : Ref)
    (record : Record ProtoValue) : DBCommand ProtoValue GoValue Ref :=
  {| Reference := reference; DBCommand_Record := record;
     QueryStr :=
       "UPDATE " +:+ quoted (Table record) +:+ " SET " +:+
       Join (map (λ p, quoted (Name p.2) +:+ " = :" +:+ valName p.1)
                 (otherFields (PrimaryKey record) 0 (Fields record))) "," +:+
       " WHERE " +:+ quoted (PrimaryKey record) +:+ " = :primary_val";
     Args := Values (scanFields GetValue record 0 (Fields record) newRecordDef) |}.

(** The DELETE command that [DeleteRecord] builds at the field [field]. *)
Definition deleteCommand {ProtoValue GoValue Ref : Type}
    (GetValue : ProtoValue → GoValue) (reference : Ref)
    (record : Record ProtoValue) (field : Field ProtoValue)
    : DBCommand ProtoValue GoValue Ref :=
  {| Reference := reference; DBCommand_Record := record;
     QueryStr := "DELETE FROM " +:+ quoted (Table record) +:+ " WHERE " +:+
                 quoted (Name field) +:+ " = :primary_val";
     Args := {[ "primary_val" := GetValue (Value field) ]} |}.

(** What the scan keeps true of the definition it builds, when the fields
    before index [n] have been scanned: the bound names are [primary_val],
    when a primary key was met, and the binding names of the column
    definitions; these binding names are names of indices below [n] and are
    pairwise distinct; and there are as many bindings as that. *)
Definition scanInv {GoValue : Type} (n : nat) (recordDef : RecordDef GoValue)
    : Prop :=
  (∀ k, is_Some (Values recordDef !! k) ↔
        (k = "primary_val" ∧ HasPrimary recordDef = true)
        ∨ k ∈ BindingName <$> ColumnDefs recordDef)
  ∧ (∀ name, name ∈ BindingName <$> ColumnDefs recordDef →
             ∃ i, i < n ∧ name = valName i)
  ∧ NoDup (BindingName <$> ColumnDefs recordDef)
  ∧ size (Values recordDef) =
      length (ColumnDefs recordDef) + (if HasPrimary recordDef then 1 else 0).

(** Two spellings of one list of events, up to the bracketing of [++]. *)
Ltac same_list :=
  cbn [app]; rewrite <- ?app_assoc; cbn [app]; rewrite <- ?app_assoc; reflexivity.

Ltac exact_run H :=
  lazymatch type of H with
  | LoopRun _ ?l _ =>
      lazymatch goal with
      | |- LoopRun _ ?l' _ => replace l' with l by same_list; exact H
      end
  end.

(** * Facts about the Go library functions *)

Lemma append_empty_r (s : string) : s +:+ EmptyString = s.
Proof. induction s as [|a s IH]; simpl; [done | by rewrite IH]. Qed.

Lemma append_inj_l (p s t : string) : p +:+ s = p +:+ t → s = t.
Proof. induction p as [|a p IH]; simpl; intros H; [done | injection H; auto]. Qed.

Lemma Sprintf_val (n : nat) :
  Sprintf [Lit "val_"; Verb_s] [Itoa (Z.of_nat n)] = valName n.
Proof. unfold valName. simpl. by rewrite append_empty_r. Qed.

Lemma valName_inj (n m : nat) : valName n = valName m → n = m.
Proof.
  unfold valName, Itoa. intros H.
  apply append_inj_l in H. apply (inj pretty) in H. lia.
Qed.

Lemma valName_not_primary (n : nat) : valName n ≠ "primary_val".
Proof. unfold valName. simpl. discriminate. Qed.

Lemma append_assoc (s t u : string) : (s +:+ t) +:+ u = s +:+ (t +:+ u).
Proof. induction s as [|a s IH]; simpl; [done | by rewrite IH]. Qed.

Lemma quoted_append (s rest : string) :
  quoted s +:+ rest = dq +:+ s +:+ dq +:+ rest.
Proof. unfold quoted. by rewrite !append_assoc. Qed.

Lemma Sprintf_InsertTemplate (table cols vals : string) :
  Sprintf InsertTemplate [table; cols; vals] =
    "INSERT INTO " +:+ quoted table +:+ " (" +:+ cols +:+ ") VALUES (" +:+ vals +:+ ")".
Proof.
  rewrite quoted_append. unfold InsertTemplate. cbn [Sprintf].
  rewrite !append_assoc. done.
Qed.

Lemma Sprintf_UpdateTemplate (table updates key : string) :
  Sprintf UpdateTemplate [table; updates; key] =
    "UPDATE " +:+ quoted table +:+ " SET " +:+ updates +:+ " WHERE " +:+
    quoted key +:+ " = :primary_val".
Proof.
  rewrite !quoted_append. unfold UpdateTemplate. cbn [Sprintf].
  rewrite !append_assoc. done.
Qed.

Lemma Sprintf_DeleteTemplate (table key : string) :
  Sprintf DeleteTemplate [table; key] =
    "DELETE FROM " +:+ quoted table +:+ " WHERE " +:+ quoted key +:+
    " = :primary_val".
Proof.
  rewrite !quoted_append. unfold DeleteTemplate. cbn [Sprintf].
  rewrite !append_assoc. done.
Qed.

Lemma length_pos_nonempty (s : string) :
  (0 <? String.length s)%nat = bool_decide (s ≠ EmptyString).
Proof. by destruct s. Qed.

(** * Facts about the translation *)

Section Translation.

Context {ProtoValue GoValue : Type}.
Variable GetValue : ProtoValue → GoValue.
Implicit Types (record : Record ProtoValue) (recordDef : RecordDef GoValue).
Implicit Types (fields : list (Field ProtoValue)) (field : Field ProtoValue).

Lemma otherFields_cons pk n field fields :
  otherFields pk n (field :: fields) =
    (if decide (pk = Name field) then [] else [(n, field)])
    ++ otherFields pk (S n) fields.
Proof.
  unfold otherFields. rewrite imap_cons, filter_cons. simpl.
  rewrite Nat.add_0_r.
  assert (imap ((λ i f, (n + i, f)) ∘ S) fields
          = imap (λ i f, (S n + i, f)) fields) as ->.
  { apply imap_ext. intros i f _. simpl. f_equal. lia. }
  destruct (decide (pk = Name field)) as [Heq|Hne].
  - rewrite decide_False by (intros H; by apply H). done.
  - rewrite decide_True by done. done.
Qed.

(** One iteration of the scan, with the binding name spelled out. *)
Lemma scanField_eq record recordDef n field :
  scanField GetValue record recordDef n field =
    if decide (PrimaryKey record = Name field) then
      {| HasPrimary := true; PrimaryColumn := Name field;
         Values := <["primary_val" := GetValue (Value field)]> (Values recordDef);
         ColumnDefs := ColumnDefs recordDef |}
    else
      {| HasPrimary := HasPrimary recordDef;
         PrimaryColumn := PrimaryColumn recordDef;
         Values := <[valName n := GetValue (Value field)]> (Values recordDef);
         ColumnDefs := ColumnDefs recordDef ++
           [ {| ColumnName := Name field; ColumnDef_Value := Name field;
                BindingName := valName n |} ] |}.
Proof. unfold scanField. cbv zeta. by rewrite Sprintf_val. Qed.

(** The column definitions: one for every field that is not the primary
    key, in field order, bound under the name of its index. *)
Lemma scanFields_ColumnDefs record fields : ∀ n recordDef,
  ColumnDefs (scanFields GetValue record n fields recordDef) =
    ColumnDefs recordDef ++
    map (λ p, {| ColumnName := Name p.2; ColumnDef_Value := Name p.2;
                 BindingName := valName p.1 |})
        (otherFields (PrimaryKey record) n fields).
Proof.
  induction fields as [|field fields IH]; intros n recordDef; simpl.
  - unfold otherFields. simpl. by rewrite app_nil_r.
  - rewrite IH, otherFields_cons, scanField_eq.
    destruct (decide (PrimaryKey record = Name field)); cbn [ColumnDefs];
      [done|].
    by rewrite <- app_assoc.
Qed.

Lemma scanFields_HasPrimary record fields : ∀ n recordDef,
  HasPrimary (scanFields GetValue record n fields recordDef) =
    HasPrimary recordDef || bool_decide (keyFields (PrimaryKey record) fields ≠ []).
Proof.
  induction fields as [|field fields IH]; intros n recordDef; simpl.
  - by rewrite orb_false_r.
  - rewrite IH, scanField_eq. unfold keyFields. rewrite filter_cons.
    destruct (decide (PrimaryKey record = Name field)); cbn [HasPrimary].
    + by rewrite orb_true_r.
    + done.
Qed.

Lemma scanFields_PrimaryColumn record fields : ∀ n recordDef,
  PrimaryColumn (scanFields GetValue record n fields recordDef) =
    if bool_decide (keyFields (PrimaryKey record) fields ≠ [])
    then PrimaryKey record else PrimaryColumn recordDef.
Proof.
  induction fields as [|field fields IH]; intros n recordDef; simpl; [done|].
  rewrite IH, scanField_eq. unfold keyFields. rewrite filter_cons.
  destruct (decide (PrimaryKey record = Name field)) as [Heq|Hne];
    cbn [PrimaryColumn].
  - rewrite (bool_decide_true (_ :: _ ≠ [])) by done.
    destruct (bool_decide _); congruence.
  - done.
Qed.

(** The value bound under [primary_val]: that of the last field named as
    the primary key. *)
Lemma scanFields_primary_val record fields : ∀ n recordDef,
  Values (scanFields GetValue record n fields recordDef) !! "primary_val" =
    match last (keyFields (PrimaryKey record) fields) with
    | Some field => Some (GetValue (Value field))
    | None => Values recordDef !! "primary_val"
    end.
Proof.
  induction fields as [|field fields IH]; intros n recordDef; simpl; [done|].
  rewrite IH, scanField_eq. unfold keyFields. rewrite filter_cons.
  destruct (decide (PrimaryKey record = Name field)) as [Heq|Hne];
    cbn [Values].
  - rewrite last_cons. rewrite lookup_insert_eq.
    by destruct (last (filter _ fields)).
  - rewrite lookup_insert_ne by apply valName_not_primary. done.
Qed.

(** The value bound under [val_m]: that of the field at index [m], when
    there is one and it is not named as the primary key. *)
Lemma scanFields_val record fields (m : nat) : ∀ n recordDef,
  Values (scanFields GetValue record n fields recordDef) !! valName m =
    match (if decide (n ≤ m) then fields !! (m - n) else None) with
    | Some field =>
        if decide (PrimaryKey record = Name field)
        then Values recordDef !! valName m
        else Some (GetValue (Value field))
    | None => Values recordDef !! valName m
    end.
Proof.
  induction fields as [|field fields IH]; intros n recordDef; simpl.
  - by destruct (decide (n ≤ m)).
  - rewrite IH, scanField_eq.
    assert (Hk : ∀ v, <["primary_val" := v]> (Values recordDef) !! valName m
                   = Values recordDef !! valName m).
    { intros v. apply lookup_insert_ne. intros H. symmetry in H.
      by apply valName_not_primary in H. }
    destruct (decide (S n ≤ m)) as [Hle|Hgt].
    + rewrite (decide_True (P := n ≤ m)) by lia.
      replace (m - n) with (S (m - S n)) by lia. cbn [lookup list_lookup].
      assert (Hn : valName n ≠ valName m).
      { intros H. apply valName_inj in H. lia. }
      destruct (fields !! (m - S n)) as [g|];
        destruct (decide (PrimaryKey record = Name field)); cbn [Values];
        rewrite ?Hk, ?(lookup_insert_ne _ _ _ _ Hn); done.
    + destruct (decide (n ≤ m)) as [Hle'|Hgt'].
      * assert (m = n) as -> by lia. rewrite Nat.sub_diag. simpl.
        destruct (decide (PrimaryKey record = Name field)); cbn [Values].
        -- apply Hk.
        -- apply lookup_insert_eq.
      * assert (Hn : valName n ≠ valName m).
        { intros H. apply valName_inj in H. lia. }
        destruct (decide (PrimaryKey record = Name field)); cbn [Values];
          rewrite ?Hk, ?(lookup_insert_ne _ _ _ _ Hn); done.
Qed.

End Translation.

Section Records.

Context {ProtoValue GoValue Ref : Type}.
Variable GetValue : ProtoValue → GoValue.
Implicit Types (record : Record ProtoValue) (recordDef : RecordDef GoValue).
Implicit Types (fields : list (Field ProtoValue)) (field : Field ProtoValue).
Implicit Types (commands : list (DBCommand ProtoValue GoValue Ref)).

(** [GetDefinition] fails exactly when a primary key is named and no field
    bears its name. *)
Lemma GetDefinition_eq record :
  GetDefinition GetValue record =
    if bool_decide (PrimaryKey record ≠ EmptyString)
       && bool_decide (keyFields (PrimaryKey record) (Fields record) = [])
    then (None, Some "Not found primary key")
    else (Some (scanFields GetValue record 0 (Fields record) newRecordDef), None).
Proof.
  unfold GetDefinition. rewrite length_pos_nonempty, scanFields_HasPrimary.
  cbn [HasPrimary newRecordDef orb].
  assert (negb (bool_decide (keyFields (PrimaryKey record) (Fields record) ≠ []))
          = bool_decide (keyFields (PrimaryKey record) (Fields record) = []))
    as ->; [|done].
  repeat case_bool_decide; done.
Qed.

Lemma keyFields_nil pk fields :
  keyFields pk fields = [] ↔ ∀ field, field ∈ fields → Name field ≠ pk.
Proof.
  unfold keyFields. induction fields as [|g fields IH].
  - split; [|done]. intros _ field H. by apply elem_of_nil in H.
  - rewrite filter_cons. destruct (decide (pk = Name g)) as [Heq|Hne].
    + split; [done|]. intros H. exfalso. apply (H g); [left | done].
    + rewrite IH. split.
      * intros H field [->|Hin]%elem_of_cons; [congruence | by apply H].
      * intros H field Hin. apply H. by right.
Qed.

(** No field named as the primary key: [deleteScan] sends nothing. *)
Lemma deleteScan_unresolved (reference : Ref) record fields commands :
  (∀ field, field ∈ fields → Name field ≠ PrimaryKey record) →
  deleteScan GetValue reference record fields commands = commands.
Proof.
  induction fields as [|g fields IH]; intros H; simpl; [done|].
  rewrite decide_False.
  - apply IH. intros field Hin. apply H. by right.
  - intros Heq. apply (H g); [left | done].
Qed.

(** [deleteScan] stops at the first field named as the primary key. *)
Lemma deleteScan_first (reference : Ref) record before field after commands :
  (∀ g, g ∈ before → Name g ≠ PrimaryKey record) →
  Name field = PrimaryKey record →
  deleteScan GetValue reference record (before ++ field :: after) commands =
    commands ++
    [ {| Reference := reference; DBCommand_Record := record;
         QueryStr := "DELETE FROM " +:+ quoted (Table record) +:+ " WHERE " +:+
                     quoted (Name field) +:+ " = :primary_val";
         Args := {[ "primary_val" := GetValue (Value field) ]} |} ].
Proof.
  intros Hbefore Hfield.
  induction before as [|g before IH]; cbn [deleteScan app].
  - rewrite decide_True by done. unfold send.
    by rewrite Sprintf_DeleteTemplate.
  - rewrite decide_False.
    + apply IH. intros g' Hin. apply Hbefore. by right.
    + intros Heq. apply (Hbefore g); [left | done].
Qed.

(** Every binding of the scan comes from the definition it started with,
    from a field named as the primary key, or from another field, under the
    name of its index. *)
Lemma scanFields_keys record fields (k : string) : ∀ n recordDef,
  is_Some (Values (scanFields GetValue record n fields recordDef) !! k) →
  is_Some (Values recordDef !! k)
  ∨ k = "primary_val"
  ∨ ∃ i field, k = valName (n + i) ∧ fields !! i = Some field
               ∧ PrimaryKey record ≠ Name field.
Proof.
  induction fields as [|g fields IH]; intros n recordDef; cbn [scanFields];
    [by left|].
  intros [Hd|[Hp|(i & field & -> & Hi & Hne)]]%IH.
  - rewrite scanField_eq in Hd.
    destruct (decide (PrimaryKey record = Name g)) as [Heq|Hne]; cbn [Values] in Hd;
      apply lookup_insert_is_Some in Hd as [<-|[_ Hd]]; auto.
    right; right. exists 0, g. by rewrite Nat.add_0_r.
  - by right; left.
  - right; right. exists (S i), field. split_and!; [f_equal; lia|done..].
Qed.

End Records.

(** * The claims about the translation *)

(** C1 (as amended).  The scan goes through the fields in their order.  A field
    named as the primary key is bound under [primary_val] (the last such field
    wins) and gets no column definition.  Every other field gets a column
    definition, in field order, and is bound under [val_<n>] where [n] is its
    index in the whole field list, the fields named as the primary key
    counted; nothing else is bound.  For the record INSERT users, key id,
    fields id=7 and name=ann, the command reads
    INSERT INTO users (id, name) VALUES (:primary_val,:val_1), identifiers in
    double quotes, with arguments primary_val=7 and val_1=ann. *)
Theorem GetDefinition_binds_by_field_index :
  (∀ (ProtoValue GoValue : Type) (GetValue : ProtoValue → GoValue)
     (record : Record ProtoValue),
     let recordDef := scanFields GetValue record 0 (Fields record) newRecordDef in
     ColumnDefs recordDef =
       map (λ p, {| ColumnName := Name p.2; ColumnDef_Value := Name p.2;
                    BindingName := valName p.1 |})
           (otherFields (PrimaryKey record) 0 (Fields record))
     ∧ Values recordDef !! "primary_val" =
         (GetValue ∘ Value) <$> last (keyFields (PrimaryKey record) (Fields record))
     ∧ (∀ n field, Fields record !! n = Some field →
          PrimaryKey record ≠ Name field →
          Values recordDef !! valName n = Some (GetValue (Value field)))
     ∧ (∀ k, is_Some (Values recordDef !! k) →
          k = "primary_val"
          ∨ ∃ n field, k = valName n ∧ Fields record !! n = Some field
                       ∧ PrimaryKey record ≠ Name field))
  ∧ ProcessData (Ref := nat) id 0
      (users_record Method_INSERT [field_id; field_name]) [] =
    (None,
     [ {| Reference := 0;
          DBCommand_Record := users_record Method_INSERT [field_id; field_name];
          QueryStr := "INSERT INTO " +:+ quoted "users" +:+ " (" +:+
                      quoted "id" +:+ "," +:+ quoted "name" +:+
                      ") VALUES (:primary_val,:val_1)";
          Args := {[ "primary_val" := SInt 7; "val_1" := SStr "ann" ]} |} ]).
Proof.
  split; [|by vm_compute].
  intros ProtoValue GoValue GetValue record recordDef. subst recordDef.
  split_and!.
  - by rewrite scanFields_ColumnDefs.
  - rewrite scanFields_primary_val.
    by destruct (last (keyFields _ _)).
  - intros n field Hn Hne. rewrite scanFields_val.
    rewrite decide_True by lia. rewrite Nat.sub_0_r, Hn.
    by rewrite decide_False.
  - intros k [Hd|[Hp|Hv]]%scanFields_keys.
    + cbn in Hd. rewrite lookup_empty in Hd. by destruct Hd.
    + by left.
    + by right.
Qed.

(** The index instance of C1 (as amended) on the scenario record: the field
    name=ann stands at index 1 and is bound under [val_1]. *)
Lemma GetDefinition_binds_by_field_index_witness :
  let record := users_record Method_INSERT [field_id; field_name] in
  Fields record !! 1 = Some field_name
  ∧ PrimaryKey record ≠ Name field_name
  ∧ Values (scanFields id record 0 (Fields record) newRecordDef) !! valName 1
    = Some (SStr "ann").
Proof.
  intros record.
  destruct GetDefinition_binds_by_field_index as [General _].
  destruct (General SValue SValue id record) as (_ & _ & Bound & _).
  split; [reflexivity|]. split; [by vm_compute|].
  apply (Bound 1 field_name); [reflexivity | by vm_compute].
Defined.

(** C1 as stated fails on its own scenario: the field name=ann is the first
    field that is not the primary key, yet it is bound under [val_1], and
    nothing is bound under [val_0]. *)
Lemma scenario_insert_binds_val_1 :
  let result :=
    ProcessData (Ref := nat) id 0
      (users_record Method_INSERT [field_id; field_name]) [] in
  QueryStr <$> result.2 =
    [ "INSERT INTO " +:+ quoted "users" +:+ " (" +:+ quoted "id" +:+ "," +:+
      quoted "name" +:+ ") VALUES (:primary_val,:val_1)" ]
  ∧ QueryStr <$> result.2 ≠
    [ "INSERT INTO " +:+ quoted "users" +:+ " (" +:+ quoted "id" +:+ "," +:+
      quoted "name" +:+ ") VALUES (:primary_val,:val_0)" ]
  ∧ ((λ cmd, Args cmd !! "val_0") <$> result.2) = [None]
  ∧ ((λ cmd, Args cmd !! "val_1") <$> result.2) = [Some (SStr "ann")].
Proof. by vm_compute. Qed.

(** C4 (as amended).  For every record whose primary key is named and borne by
    no field, processing sends no command; it returns the error
    Not found primary key when the method is INSERT or UPDATE, and no error
    when the method is DELETE or any other value. *)
Theorem unresolved_primary_key {ProtoValue GoValue Ref : Type}
    (GetValue : ProtoValue → GoValue) (reference : Ref)
    (record : Record ProtoValue)
    (commands : list (DBCommand ProtoValue GoValue Ref)) :
  PrimaryKey record ≠ EmptyString →
  (∀ field, field ∈ Fields record → Name field ≠ PrimaryKey record) →
  ProcessData GetValue reference record commands =
    (match Method_ record with
     | Method_INSERT | Method_UPDATE => Some "Not found primary key"
     | Method_DELETE | Method_other _ => None
     end,
     commands).
Proof.
  intros Hkey Hnone. unfold ProcessData.
  assert (Hdef : GetDefinition GetValue record = (None, Some "Not found primary key")).
  { rewrite GetDefinition_eq.
    rewrite bool_decide_true by done.
    rewrite bool_decide_true by (by apply keyFields_nil). done. }
  destruct (Method_ record).
  - unfold InsertRecord. by rewrite Hdef.
  - unfold UpdateRecord. by rewrite Hdef.
  - unfold DeleteRecord. rewrite decide_False by done.
    by rewrite deleteScan_unresolved.
  - done.
Qed.

(** C4 (as amended) on an UPDATE of users keyed by id that carries the field
    name only. *)
Lemma unresolved_primary_key_witness :
  let record := users_record Method_UPDATE [field_name] in
  PrimaryKey record ≠ EmptyString
  ∧ (∀ field, field ∈ Fields record → Name field ≠ PrimaryKey record)
  ∧ ProcessData (Ref := nat) id 0 record [] = (Some "Not found primary key", []).
Proof.
  intros record.
  assert (Hkey : PrimaryKey record ≠ EmptyString) by (by vm_compute).
  assert (Hnone : ∀ field, field ∈ Fields record → Name field ≠ PrimaryKey record).
  { intros field Hin. apply list_elem_of_singleton in Hin. subst field.
    by vm_compute. }
  split; [exact Hkey|]. split; [exact Hnone|].
  exact (unresolved_primary_key id 0 record [] Hkey Hnone).
Defined.

(** C4 as stated fails for DELETE: the key id is named, no field bears it,
    and processing returns no error. *)
Lemma delete_unresolved_key_returns_nil :
  let record := users_record Method_DELETE [field_name] in
  PrimaryKey record ≠ EmptyString
  ∧ Forall (λ field, Name field ≠ PrimaryKey record) (Fields record)
  ∧ ProcessData (Ref := nat) id 0 record [] = (None, [])
  ∧ (ProcessData (Ref := nat) id 0 record []).1 ≠ Some "Not found primary key".
Proof.
  split_and!; try by vm_compute.
  repeat constructor. by vm_compute.
Qed.

(** C5, on the input where the code departs from it.  An UPDATE with an empty
    primary key is dropped only when no field has the empty name: the scan
    compares the key with every field name, so a field with the empty name
    sets [HasPrimary], and a command is sent. *)
Theorem update_empty_key_empty_name_enqueues :
  let record :=
    {| Method_ := Method_UPDATE; Table := "users";
       Fields := [ {| Name := EmptyString; Value := SInt 7 |} ];
       PrimaryKey := EmptyString |} in
  ProcessData (Ref := nat) id 0 record [] =
    (None,
     [ {| Reference := 0; DBCommand_Record := record;
          QueryStr := "UPDATE " +:+ quoted "users" +:+ " SET  WHERE " +:+
                      quoted EmptyString +:+ " = :primary_val";
          Args := {[ "primary_val" := SInt 7 ]} |} ]).
Proof. by vm_compute. Qed.

(** What does hold next to C5: a DELETE with an empty primary key is always
    dropped, and so is an UPDATE with an empty primary key none of whose
    fields has the empty name. *)
Lemma empty_key_dropped {ProtoValue GoValue Ref : Type}
    (GetValue : ProtoValue → GoValue) (reference : Ref)
    (record : Record ProtoValue)
    (commands : list (DBCommand ProtoValue GoValue Ref)) :
  PrimaryKey record = EmptyString →
  Method_ record = Method_DELETE
  ∨ (Method_ record = Method_UPDATE
     ∧ ∀ field, field ∈ Fields record → Name field ≠ EmptyString) →
  ProcessData GetValue reference record commands = (None, commands).
Proof.
  intros Hkey [Hmethod|[Hmethod Hnames]]; unfold ProcessData; rewrite Hmethod.
  - unfold DeleteRecord. by rewrite decide_True.
  - unfold UpdateRecord. rewrite GetDefinition_eq.
    rewrite bool_decide_false by (intros H; by apply H). cbn [andb].
    rewrite scanFields_HasPrimary. cbn [HasPrimary newRecordDef orb].
    rewrite bool_decide_false; [done|].
    intros H. apply H. apply keyFields_nil. rewrite Hkey. exact Hnames.
Qed.

(** C6.  For every INSERT record that translates, processing sends one
    command.  Its statement is the INSERT template on the quoted table, the
    quoted columns and the bindings, both lists joined by commas: the primary
    key column first, bound as [:primary_val], when a field bears the key,
    then the other fields in field order, each bound under the name of its
    column definition. *)
Theorem insert_QueryStr {ProtoValue GoValue Ref : Type}
    (GetValue : ProtoValue → GoValue) (reference : Ref)
    (record : Record ProtoValue) (recordDef : RecordDef GoValue)
    (commands : list (DBCommand ProtoValue GoValue Ref)) :
  Method_ record = Method_INSERT →
  GetDefinition GetValue record = (Some recordDef, None) →
  let others := otherFields (PrimaryKey record) 0 (Fields record) in
  let cols :=
    (if HasPrimary recordDef then [quoted (PrimaryKey record)] else [])
    ++ map (λ p, quoted (Name p.2)) others in
  let vals :=
    (if HasPrimary recordDef then [":primary_val"] else [])
    ++ map (λ p, ":" +:+ valName p.1) others in
  ProcessData GetValue reference record commands =
    (None,
     commands ++
     [ {| Reference := reference; DBCommand_Record := record;
          QueryStr := "INSERT INTO " +:+ quoted (Table record) +:+ " (" +:+
                      Join cols "," +:+ ") VALUES (" +:+ Join vals "," +:+ ")";
          Args := Values recordDef |} ])
  ∧ (HasPrimary recordDef = true ↔
       ∃ field, field ∈ Fields record ∧ Name field = PrimaryKey record)
  ∧ map BindingName (ColumnDefs recordDef) = map (λ p, valName p.1) others.
Proof.
  intros Hmethod Hdef others cols vals.
  assert (HrecordDef :
    recordDef = scanFields GetValue record 0 (Fields record) newRecordDef).
  { rewrite GetDefinition_eq in Hdef. destruct (_ && _); congruence. }
  assert (Hcolumns : ColumnDefs recordDef =
    map (λ p, {| ColumnName := Name p.2; ColumnDef_Value := Name p.2;
                 BindingName := valName p.1 |}) others).
  { rewrite HrecordDef. by rewrite scanFields_ColumnDefs. }
  assert (Hcolumn : HasPrimary recordDef = true →
                    PrimaryColumn recordDef = PrimaryKey record).
  { rewrite HrecordDef, scanFields_HasPrimary, scanFields_PrimaryColumn.
    cbn [HasPrimary newRecordDef orb]. by intros ->. }
  split_and!.
  - unfold ProcessData. rewrite Hmethod. unfold InsertRecord. rewrite Hdef.
    unfold insert, send. cbv zeta. rewrite Sprintf_InsertTemplate.
    rewrite Hcolumns, !map_map. cbn [ColumnName BindingName].
    subst cols vals. unfold quoted.
    destruct (HasPrimary recordDef); [rewrite Hcolumn by done|]; done.
  - rewrite HrecordDef, scanFields_HasPrimary.
    cbn [HasPrimary newRecordDef orb]. rewrite bool_decide_eq_true.
    split.
    + intros Hsome. destruct (keyFields _ _) as [|field l] eqn:Hl; [done|].
      exists field.
      assert (Hin : field ∈ keyFields (PrimaryKey record) (Fields record)).
      { rewrite Hl. left. }
      apply list_elem_of_filter in Hin as [Hname Hin]. done.
    + intros (field & Hin & Hname) Hnil.
      rewrite keyFields_nil in Hnil. by apply (Hnil field).
  - by rewrite Hcolumns, map_map.
Qed.

(** C6 on the scenario record INSERT users, key id, fields id=7, name=ann. *)
Lemma insert_QueryStr_witness :
  let record := users_record Method_INSERT [field_id; field_name] in
  let recordDef := scanFields id record 0 (Fields record) newRecordDef in
  Method_ record = Method_INSERT
  ∧ GetDefinition id record = (Some recordDef, None)
  ∧ ProcessData (Ref := nat) id 0 record [] =
      (None,
       [ {| Reference := 0; DBCommand_Record := record;
            QueryStr := "INSERT INTO " +:+ quoted "users" +:+ " (" +:+
                        quoted "id" +:+ "," +:+ quoted "name" +:+
                        ") VALUES (:primary_val,:val_1)";
            Args := Values recordDef |} ]).
Proof.
  intros record recordDef.
  assert (Hmethod : Method_ record = Method_INSERT) by reflexivity.
  assert (Hdef : GetDefinition id record = (Some recordDef, None))
    by (by vm_compute).
  split; [exact Hmethod|]. split; [exact Hdef|].
  destruct (insert_QueryStr id 0 record recordDef [] Hmethod Hdef) as [Sent _].
  rewrite Sent. by vm_compute.
Defined.

(** C7.  For every DELETE record whose primary key is named and borne by a
    field, processing sends exactly one command: the DELETE template on the
    quoted table and the quoted name of the first such field, with the single
    argument [primary_val] bound to that field's value. *)
Theorem delete_enqueues_one {ProtoValue GoValue Ref : Type}
    (GetValue : ProtoValue → GoValue) (reference : Ref)
    (record : Record ProtoValue)
    (before : list (Field ProtoValue)) (field : Field ProtoValue)
    (after : list (Field ProtoValue))
    (commands : list (DBCommand ProtoValue GoValue Ref)) :
  Method_ record = Method_DELETE →
  PrimaryKey record ≠ EmptyString →
  Fields record = before ++ field :: after →
  (∀ g, g ∈ before → Name g ≠ PrimaryKey record) →
  Name field = PrimaryKey record →
  ProcessData GetValue reference record commands =
    (None,
     commands ++
     [ {| Reference := reference; DBCommand_Record := record;
          QueryStr := "DELETE FROM " +:+ quoted (Table record) +:+ " WHERE " +:+
                      quoted (Name field) +:+ " = :primary_val";
          Args := {[ "primary_val" := GetValue (Value field) ]} |} ]).
Proof.
  intros Hmethod Hkey Hfields Hbefore Hfield.
  unfold ProcessData. rewrite Hmethod. unfold DeleteRecord.
  rewrite decide_False by done. rewrite Hfields.
  by rewrite deleteScan_first.
Qed.

(** C7 on the scenario record DELETE users, key id, field id=7. *)
Lemma delete_enqueues_one_witness :
  let record := users_record Method_DELETE [field_id] in
  Method_ record = Method_DELETE
  ∧ PrimaryKey record ≠ EmptyString
  ∧ Fields record = [] ++ field_id :: []
  ∧ Name field_id = PrimaryKey record
  ∧ ProcessData (Ref := nat) id 0 record [] =
      (None,
       [ {| Reference := 0; DBCommand_Record := record;
            QueryStr := "DELETE FROM " +:+ quoted "users" +:+ " WHERE " +:+
                        quoted "id" +:+ " = :primary_val";
            Args := {[ "primary_val" := SInt 7 ]} |} ]).
Proof.
  intros record.
  assert (Hkey : PrimaryKey record ≠ EmptyString) by (by vm_compute).
  split_and!; [reflexivity | exact Hkey | reflexivity | reflexivity |].
  apply (delete_enqueues_one id 0 record [] field_id [] []);
    [reflexivity | exact Hkey | reflexivity | | reflexivity].
  intros g Hin. by apply elem_of_nil in Hin.
Defined.

(** C8.  For every record whose method is none of INSERT, UPDATE and DELETE,
    processing returns no error and sends no command. *)
Theorem unknown_method_noop {ProtoValue GoValue Ref : Type}
    (GetValue : ProtoValue → GoValue) (reference : Ref)
    (record : Record ProtoValue)
    (commands : list (DBCommand ProtoValue GoValue Ref)) :
  Method_ record ≠ Method_INSERT →
  Method_ record ≠ Method_UPDATE →
  Method_ record ≠ Method_DELETE →
  ProcessData GetValue reference record commands = (None, commands).
Proof.
  intros Hinsert Hupdate Hdelete. unfold ProcessData.
  by destruct (Method_ record).
Qed.

(** C8 on a record whose method is the enumeration value 3. *)
Lemma unknown_method_noop_witness :
  let record := users_record (Method_other 3) [field_id; field_name] in
  Method_ record ≠ Method_INSERT
  ∧ Method_ record ≠ Method_UPDATE
  ∧ Method_ record ≠ Method_DELETE
  ∧ ProcessData (Ref := nat) id 0 record [] = (None, []).
Proof.
  intros record.
  assert (Hinsert : Method_ record ≠ Method_INSERT) by (by vm_compute).
  assert (Hupdate : Method_ record ≠ Method_UPDATE) by (by vm_compute).
  assert (Hdelete : Method_ record ≠ Method_DELETE) by (by vm_compute).
  split_and!; [exact Hinsert | exact Hupdate | exact Hdelete |].
  exact (unknown_method_noop id 0 record [] Hinsert Hupdate Hdelete).
Defined.

(** C10.  For every UPDATE record whose only field bears the primary key, a
    command is sent all the same: its SET list is empty, so the statement
    reads UPDATE table SET, two spaces, WHERE key = :primary_val (identifiers
    in double quotes), and its only argument is [primary_val]. *)
Theorem update_key_only_empty_SET {ProtoValue GoValue Ref : Type}
    (GetValue : ProtoValue → GoValue) (reference : Ref)
    (record : Record ProtoValue) (field : Field ProtoValue)
    (commands : list (DBCommand ProtoValue GoValue Ref)) :
  Method_ record = Method_UPDATE →
  Fields record = [field] →
  Name field = PrimaryKey record →
  ProcessData GetValue reference record commands =
    (None,
     commands ++
     [ {| Reference := reference; DBCommand_Record := record;
          QueryStr := "UPDATE " +:+ quoted (Table record) +:+ " SET  WHERE " +:+
                      quoted (Name field) +:+ " = :primary_val";
          Args := {[ "primary_val" := GetValue (Value field) ]} |} ]).
Proof.
  intros Hmethod Hfields Hfield.
  unfold ProcessData. rewrite Hmethod. unfold UpdateRecord.
  rewrite GetDefinition_eq, Hfields. unfold keyFields. rewrite filter_cons.
  rewrite decide_True by done.
  rewrite (bool_decide_false (_ :: _ = [])) by done. rewrite andb_false_r.
  cbn [scanFields]. rewrite scanField_eq, decide_True by done.
  cbn [HasPrimary negb]. unfold update, send. cbv zeta.
  rewrite Sprintf_UpdateTemplate.
  cbn [ColumnDefs newRecordDef map Join PrimaryColumn Values].
  rewrite insert_empty. done.
Qed.

(** C10 on the record UPDATE users, key id, field id=7. *)
Lemma update_key_only_empty_SET_witness :
  let record := users_record Method_UPDATE [field_id] in
  Method_ record = Method_UPDATE
  ∧ Fields record = [field_id]
  ∧ Name field_id = PrimaryKey record
  ∧ ProcessData (Ref := nat) id 0 record [] =
      (None,
       [ {| Reference := 0; DBCommand_Record := record;
            QueryStr := "UPDATE " +:+ quoted "users" +:+ " SET  WHERE " +:+
                        quoted "id" +:+ " = :primary_val";
            Args := {[ "primary_val" := SInt 7 ]} |} ]).
Proof.
  intros record.
  split_and!; [reflexivity..|].
  exact (update_key_only_empty_SET id 0 record field_id []
           eq_refl eq_refl eq_refl).
Defined.

(** * Facts about the batch writer *)

Section BatchWriter.

Context {ProtoValue GoValue Ref : Type}.
Implicit Types (cmds pre post : list (DBCommand ProtoValue GoValue Ref)).
Implicit Types (cmd : DBCommand ProtoValue GoValue Ref).
Implicit Types (script rest : list Reply).
Implicit Types (evs : list (Event ProtoValue GoValue Ref)).

(** The three ways the loop over the commands can go, with the replies it
    has read. *)
Lemma execCommands_cases cmds script :
  (script = replicate (length cmds) Ok ++ (execCommands cmds script).2
   ∧ (execCommands cmds script).1 = (execOk cmds, ExecDone))
  ∨ (∃ pre cmd post rest,
       cmds = pre ++ cmd :: post
       ∧ script = replicate (length pre) Ok ++ Fail :: rest
       ∧ execCommands cmds script =
           (execOk pre ++ [EvNamedExec cmd Fail; EvRollback TxLive; EvAfter5s],
            ExecGotoLOOP, rest))
  ∨ (∃ pre cmd post,
       cmds = pre ++ cmd :: post
       ∧ script = replicate (length pre) Ok
       ∧ execCommands cmds script = (execOk pre, ExecNoReply, [])).
Proof.
  revert script. induction cmds as [|c cmds IH]; intros script.
  - left. done.
  - destruct script as [|[|] script]; cbn [execCommands].
    + right; right. by exists [], c, cmds.
    + destruct (IH script) as [[Hs He]|[(pre & cmd & post & rest & -> & -> & He)
                                      |(pre & cmd & post & -> & -> & He)]].
      * left. destruct (execCommands cmds script) as [[evs res] script'].
        cbn in *. injection He as -> ->. split; [by f_equal | done].
      * right; left. exists (c :: pre), cmd, post, rest.
        rewrite He. done.
      * right; right. exists (c :: pre), cmd, post. rewrite He. done.
    + right; left. by exists [], c, cmds, script.
Qed.

Lemma execCommands_all_ok cmds rest :
  execCommands cmds (replicate (length cmds) Ok ++ rest) =
    (execOk cmds, ExecDone, rest).
Proof.
  induction cmds as [|c cmds IH]; cbn [execCommands length replicate app];
    [done|].
  by rewrite IH.
Qed.

Lemma execCommands_fail pre cmd post rest :
  execCommands (pre ++ cmd :: post) (replicate (length pre) Ok ++ Fail :: rest) =
    (execOk pre ++ [EvNamedExec cmd Fail; EvRollback TxLive; EvAfter5s],
     ExecGotoLOOP, rest).
Proof.
  induction pre as [|c pre IH]; cbn [execCommands length replicate app];
    [done|].
  by rewrite IH.
Qed.

(** The loop over the commands hands back no more replies than it got. *)
Lemma execCommands_length cmds script :
  length (execCommands cmds script).2 ≤ length script.
Proof.
  destruct (execCommands_cases cmds script)
    as [[Hs _]|[(pre & cmd & post & rest & _ & -> & ->)
               |(pre & cmd & post & _ & -> & ->)]].
  - rewrite Hs at 2. rewrite length_app. lia.
  - cbn. rewrite length_app. cbn. lia.
  - cbn. lia.
Qed.

(** Every attempt reads a reply: fuel beyond the length of the script is
    never used. *)
Lemma writeLoop_fuel cmds : ∀ fuel fuel' script,
  length script < fuel → length script < fuel' →
  writeLoop fuel cmds script = writeLoop fuel' cmds script.
Proof.
  induction fuel as [|fuel IH]; intros fuel' script Hf Hf'; [lia|].
  destruct fuel' as [|fuel']; [lia|].
  destruct script as [|[|] script1]; cbn [writeLoop Beginx_handle]; [done| |done].
  pose proof (execCommands_length cmds script1) as Hlen.
  destruct (execCommands cmds script1) as [[evs res] script2].
  cbn [snd] in Hlen. cbn [length] in Hf, Hf'.
  destruct res; [|f_equal; apply IH; lia|done].
  destruct script2 as [|[|] script3]; [done..|].
  cbn [length] in Hlen. f_equal. apply IH; lia.
Qed.

Lemma writeLoop_never_out_of_fuel cmds : ∀ fuel script,
  length script < fuel → (writeLoop fuel cmds script).2 ≠ OutOfFuel.
Proof.
  induction fuel as [|fuel IH]; intros script Hf; [lia|].
  destruct script as [|[|] script1]; cbn [writeLoop Beginx_handle]; [done| |done].
  pose proof (execCommands_length cmds script1) as Hlen.
  destruct (execCommands cmds script1) as [[evs res] script2].
  cbn [snd] in Hlen. cbn [length] in Hf.
  destruct res; [|apply IH; lia|done].
  destruct script2 as [|[|] script3]; [done..|].
  cbn [length] in Hlen. apply IH; lia.
Qed.

(** The loop runs attempt by attempt. *)
Lemma writeLoop_run cmds : ∀ fuel script,
  LoopRun cmds (writeLoop fuel cmds script).1 (writeLoop fuel cmds script).2.
Proof.
  induction fuel as [|fuel IH]; intros script; [constructor|].
  destruct script as [|[|] script1]; cbn [writeLoop Beginx_handle];
    [constructor| |constructor].
  destruct (execCommands_cases cmds script1)
    as [[Hs He]|[(pre & cmd & post & rest & Hc & -> & He)
                |(pre & cmd & post & Hc & -> & He)]].
  - destruct (execCommands cmds script1) as [[evs res] script2].
    cbn in He. injection He as -> ->.
    destruct script2 as [|[|] script3].
    + apply (run_no_reply cmds cmds []). by rewrite app_nil_r.
    + constructor.
    + specialize (IH script3). unfold prepend. cbn [fst snd].
      pose proof (run_retry cmds _ _ _ _ (commit_error cmds) IH) as Hrun.
      exact_run Hrun.
  - rewrite He. specialize (IH rest). unfold prepend. cbn [fst snd].
    pose proof (run_retry cmds _ _ _ _ (exec_error cmds pre cmd post Hc) IH)
      as Hrun.
    exact_run Hrun.
  - rewrite He. by apply (run_no_reply cmds pre (cmd :: post)).
Qed.

(** ** What a trace of the loop contains *)

Lemma completions_app evs evs' :
  completions (evs ++ evs') = completions evs ++ completions evs'.
Proof. apply omap_app. Qed.

Lemma completions_execOk cmds : completions (execOk cmds) = [].
Proof. induction cmds as [|c cmds IH]; [done | exact IH]. Qed.

Lemma completions_EvCompletion cmds :
  completions (map EvCompletion cmds) = cmds.
Proof. induction cmds as [|c cmds IH]; [done | cbn; by f_equal]. Qed.

Lemma elem_of_execOk (e : Event ProtoValue GoValue Ref) cmds :
  e ∈ execOk cmds → ∃ cmd, e = EvNamedExec cmd Ok.
Proof.
  unfold execOk. intros (cmd & -> & _)%list_elem_of_fmap. by exists cmd.
Qed.

Lemma FailedAttempt_completions cmds replies evs :
  FailedAttempt cmds replies evs →
  completions (evs ++ [EvRollback TxLive; EvAfter5s]) = [].
Proof.
  intros [pre cmd post _|]; cbn [app]; rewrite <- app_assoc;
    change (completions (EvBeginx Ok :: ?l)) with (completions l);
    by rewrite completions_app, completions_execOk.
Qed.

(** A failed attempt holds neither a successful commit nor a failed
    begin. *)
Lemma FailedAttempt_events cmds replies evs (e : Event ProtoValue GoValue Ref) :
  FailedAttempt cmds replies evs →
  e = EvCommit Ok ∨ e = EvBeginx Fail →
  e ∉ evs ++ [EvRollback TxLive; EvAfter5s].
Proof.
  intros Hfail He Hin. apply elem_of_app in Hin as [Hin|Hin].
  - destruct Hfail as [pre cmd post _|];
      (apply elem_of_cons in Hin as [->|Hin]; [by destruct He|]);
      (apply elem_of_app in Hin as [[c ->]%elem_of_execOk|Hin];
         [by destruct He|]);
      apply list_elem_of_singleton in Hin as ->; by destruct He.
  - apply elem_of_cons in Hin as [->|Hin]; [by destruct He|].
    apply list_elem_of_singleton in Hin as ->. by destruct He.
Qed.

Lemma LoopRun_completions cmds evs out :
  LoopRun cmds evs out → completions evs = [].
Proof.
  induction 1 as [| | |pre post _| |replies evs rest out Hfail _ IH].
  - done.
  - done.
  - done.
  - apply completions_execOk.
  - change (completions (EvBeginx Ok :: ?l)) with (completions l).
    by rewrite completions_app, completions_execOk.
  - rewrite app_assoc, completions_app, IH.
    by rewrite (FailedAttempt_completions _ _ _ Hfail).
Qed.

(** The loop is left by [break] exactly when a commit succeeds; that
    commit ends the trace, after one attempt on the whole chunk. *)
Lemma LoopRun_commit cmds evs out :
  LoopRun cmds evs out →
  (out = Returned
   ∧ ∃ body, evs = body ++ EvBeginx Ok :: execOk cmds ++ [EvCommit Ok]
             ∧ EvCommit Ok ∉ body)
  ∨ (out ≠ Returned ∧ EvCommit Ok ∉ evs).
Proof.
  induction 1 as [| | |pre post _| |replies evs rest out Hfail _ IH].
  - right. split; [done | apply not_elem_of_nil].
  - right. split; [done | apply not_elem_of_nil].
  - right. split; [done|]. intros Hin.
    repeat (apply elem_of_cons in Hin as [?|Hin]; [done|]).
    by apply elem_of_nil in Hin.
  - right. split; [done|].
    intros [?|[c ?]%elem_of_execOk]%elem_of_cons; done.
  - left. split; [done|]. exists []. split; [done | apply not_elem_of_nil].
  - pose proof (FailedAttempt_events _ _ _ (EvCommit Ok) Hfail (or_introl eq_refl))
      as Hnot.
    destruct IH as [[-> (body & -> & Hbody)]|[Hout Hrest]].
    + left. split; [done|].
      exists ((evs ++ [EvRollback TxLive; EvAfter5s]) ++ body).
      split; [same_list|].
      rewrite elem_of_app. tauto.
    + right. split; [done|]. rewrite app_assoc, elem_of_app. tauto.
Qed.

(** A begin that fails ends the trace: the rollback through the nil handle
    follows at once, and the writer panics. *)
Lemma LoopRun_begin_fail cmds evs out :
  LoopRun cmds evs out →
  EvBeginx Fail ∈ evs →
  out = PanicNilTx
  ∧ ∃ body, evs = body ++ [EvBeginx Fail; EvRollback TxNil]
            ∧ EvBeginx Fail ∉ body.
Proof.
  induction 1 as [| | |pre post _| |replies evs rest out Hfail _ IH]; intros Hin.
  - by apply elem_of_nil in Hin.
  - by apply elem_of_nil in Hin.
  - split; [done|]. exists []. split; [done | apply not_elem_of_nil].
  - apply elem_of_cons in Hin as [?|[c ?]%elem_of_execOk]; done.
  - rewrite elem_of_cons, elem_of_app, elem_of_cons in Hin.
    destruct Hin as [?|[[c ?]%elem_of_execOk|[?|Hin]]]; try done.
    by apply elem_of_nil in Hin.
  - pose proof (FailedAttempt_events _ _ _ (EvBeginx Fail) Hfail (or_intror eq_refl))
      as Hnot.
    rewrite app_assoc, elem_of_app in Hin. destruct Hin as [Hin|Hin]; [done|].
    destruct (IH Hin) as [-> (body & -> & Hbody)]. split; [done|].
    exists ((evs ++ [EvRollback TxLive; EvAfter5s]) ++ body).
    split; [same_list|]. rewrite elem_of_app. tauto.
Qed.

(** ** processData *)

Lemma completeAll_prepend cmds evs (r : list (Event ProtoValue GoValue Ref) * Outcome) :
  completeAll cmds (prepend evs r) = prepend evs (completeAll cmds r).
Proof.
  destruct r as [evs' []]; unfold prepend; cbn; try done.
  by rewrite app_assoc.
Qed.

(** A run of [processData] either returns, after a last attempt that
    executes the whole chunk, commits, and is followed by the completion
    handler on every command in chunk order; or it does not return, and
    then it has neither committed nor called the handler. *)
Lemma processData_trace cmds script :
  (∃ body,
     processData cmds script =
       (body ++ EvBeginx Ok :: execOk cmds ++
          EvCommit Ok :: map EvCompletion cmds, Returned)
     ∧ completions body = [] ∧ EvCommit Ok ∉ body)
  ∨ ((processData cmds script).2 ≠ Returned
     ∧ completions (processData cmds script).1 = []
     ∧ EvCommit Ok ∉ (processData cmds script).1).
Proof.
  unfold processData.
  pose proof (writeLoop_run cmds (S (length script)) script) as Hrun.
  destruct (writeLoop (S (length script)) cmds script) as [evs out].
  cbn [fst snd] in Hrun.
  pose proof (LoopRun_completions _ _ _ Hrun) as Hquiet.
  destruct (LoopRun_commit _ _ _ Hrun) as [[-> (body & -> & Hbody)]|[Hout Hno]].
  - left. exists body. cbn [completeAll]. split; [f_equal; same_list|].
    split; [|done].
    rewrite completions_app in Hquiet. by apply app_eq_nil in Hquiet as [-> _].
  - right. by destruct out.
Qed.

(** One attempt of the loop that fails at a statement. *)
Lemma writeLoop_exec_error fuel pre cmd post rest :
  writeLoop (S fuel) (pre ++ cmd :: post)
    (Ok :: replicate (length pre) Ok ++ Fail :: rest) =
  prepend
    (EvBeginx Ok :: execOk pre ++
       [EvNamedExec cmd Fail; EvRollback TxLive; EvAfter5s])
    (writeLoop fuel (pre ++ cmd :: post) rest).
Proof. cbn [writeLoop Beginx_handle]. by rewrite execCommands_fail. Qed.

(** One attempt of the loop that fails at the commit. *)
Lemma writeLoop_commit_error fuel cmds rest :
  writeLoop (S fuel) cmds (Ok :: replicate (length cmds) Ok ++ Fail :: rest) =
  prepend
    (EvBeginx Ok :: execOk cmds ++
       [EvCommit Fail; EvRollback TxLive; EvAfter5s])
    (writeLoop fuel cmds rest).
Proof. cbn [writeLoop Beginx_handle]. by rewrite execCommands_all_ok. Qed.

(** After a failed attempt the writer rolls back, waits, and goes on as
    [processData] does on the same chunk with the replies that are left. *)
Lemma processData_retry cmds replies evs rest :
  FailedAttempt cmds replies evs →
  processData cmds (replies ++ rest) =
    prepend (evs ++ [EvRollback TxLive; EvAfter5s]) (processData cmds rest).
Proof.
  intros [pre cmd post Hc|]; unfold processData;
    rewrite <- completeAll_prepend; f_equal;
    cbn [app]; rewrite <- app_assoc; cbn [app].
  - rewrite Hc. rewrite writeLoop_exec_error.
    rewrite (writeLoop_fuel _ _ (S (length rest)) rest).
    + unfold prepend. f_equal. same_list.
    + cbn [length]. rewrite length_app. cbn [length]. lia.
    + lia.
  - rewrite writeLoop_commit_error.
    rewrite (writeLoop_fuel _ _ (S (length rest)) rest).
    + unfold prepend. f_equal. same_list.
    + cbn [length]. rewrite length_app. cbn [length]. lia.
    + lia.
Qed.

(** When the database accepts a whole attempt, the writer returns. *)
Lemma processData_commits cmds rest :
  processData cmds (Ok :: replicate (length cmds) Ok ++ Ok :: rest) =
    (EvBeginx Ok :: execOk cmds ++ EvCommit Ok :: map EvCompletion cmds,
     Returned).
Proof.
  unfold processData. cbn [length writeLoop Beginx_handle].
  rewrite execCommands_all_ok. cbn [completeAll]. f_equal. same_list.
Qed.

(** When the begin fails, the writer panics on the nil handle. *)
Lemma processData_begin_fail cmds rest :
  processData cmds (Fail :: rest) =
    ([EvBeginx Fail; EvRollback TxNil], PanicNilTx).
Proof. done. Qed.

(** The fuel of the model is never what stops the writer. *)
Lemma processData_never_out_of_fuel cmds script :
  (processData cmds script).2 ≠ OutOfFuel.
Proof.
  unfold processData.
  pose proof (writeLoop_never_out_of_fuel cmds (S (length script)) script) as H.
  destruct (writeLoop (S (length script)) cmds script) as [evs []];
    cbn in *; try done.
  apply H. lia.
Qed.

End BatchWriter.

(** * The claims about the batch writer *)

(** The scenario chunk is what processing the three records sends, in the
    order of the calls. *)
Lemma chunk3_sent :
  let sent0 := (ProcessData id 0 (DBCommand_Record cmd_delete) []).2 in
  let sent1 := (ProcessData id 1 (DBCommand_Record cmd_insert) sent0).2 in
  (ProcessData id 2 (DBCommand_Record cmd_update) sent1).2 = chunk3.
Proof. by vm_compute. Qed.

(** C2.  For every chunk and every failing attempt on it (the statement of
    one of its commands fails, or the commit fails), the writer rolls back,
    waits the retry delay, and goes on exactly as it does when it is handed
    the same whole chunk afresh with the replies that are left.  The
    completion handler is not called during the failed attempt, the rollback
    and the wait; if it is called at all in the run, that is after a later
    attempt that executes every command of the chunk in chunk order and
    commits. *)
Theorem retry_whole_chunk {ProtoValue GoValue Ref : Type}
    (cmds : list (DBCommand ProtoValue GoValue Ref))
    (replies : list Reply) (evs : list (Event ProtoValue GoValue Ref))
    (rest : list Reply) :
  FailedAttempt cmds replies evs →
  processData cmds (replies ++ rest) =
    prepend (evs ++ [EvRollback TxLive; EvAfter5s]) (processData cmds rest)
  ∧ completions (evs ++ [EvRollback TxLive; EvAfter5s]) = []
  ∧ (completions (processData cmds (replies ++ rest)).1 ≠ [] →
     ∃ body,
       processData cmds rest =
         (body ++ EvBeginx Ok :: execOk cmds ++
            EvCommit Ok :: map EvCompletion cmds, Returned)
       ∧ completions body = []).
Proof.
  intros Hfail. split_and!.
  - by apply processData_retry.
  - by apply (FailedAttempt_completions cmds replies).
  - rewrite (processData_retry _ _ _ _ Hfail). unfold prepend. cbn [fst].
    rewrite completions_app, (FailedAttempt_completions _ _ _ Hfail).
    cbn [app]. intros Hcalled.
    destruct (processData_trace cmds rest)
      as [(body & Hrun & Hbody & _)|(_ & Hquiet & _)]; [|done].
    by exists body.
Qed.

(** C2 on the scenario chunk: the second of three statements fails; the
    three completion calls are withheld, the transaction is rolled back, and
    after the delay the same three commands are executed again, committed and
    completed. *)
Lemma retry_whole_chunk_witness :
  let failed := EvBeginx Ok :: execOk [cmd_delete] ++ [EvNamedExec cmd_insert Fail] in
  FailedAttempt chunk3 [Ok; Ok; Fail] failed
  ∧ processData chunk3 ([Ok; Ok; Fail] ++ [Ok; Ok; Ok; Ok; Ok]) =
      (failed ++ [EvRollback TxLive; EvAfter5s] ++
       EvBeginx Ok :: execOk chunk3 ++ EvCommit Ok :: map EvCompletion chunk3,
       Returned).
Proof.
  intros failed.
  assert (Hfail : FailedAttempt chunk3 [Ok; Ok; Fail] failed).
  { exact (exec_error chunk3 [cmd_delete] cmd_insert [cmd_update] eq_refl). }
  split; [exact Hfail|].
  destruct (retry_whole_chunk chunk3 [Ok; Ok; Fail] failed [Ok; Ok; Ok; Ok; Ok] Hfail)
    as [Restart _].
  rewrite Restart. reflexivity.
Defined.

(** C3.  For every chunk whose transaction commits, the run returns; the
    completion handler is called after the commit and not before, once on
    every command of the chunk, in chunk order, and each call is handed its
    command, hence the command's reference and record. *)
Theorem completion_after_commit {ProtoValue GoValue Ref : Type}
    (cmds : list (DBCommand ProtoValue GoValue Ref)) (script : list Reply) :
  EvCommit Ok ∈ (processData cmds script).1 →
  (∃ body,
     processData cmds script =
       (body ++ EvBeginx Ok :: execOk cmds ++
          EvCommit Ok :: map EvCompletion cmds, Returned)
     ∧ completions body = [] ∧ EvCommit Ok ∉ body)
  ∧ completions (processData cmds script).1 = cmds
  ∧ (λ cmd, (Reference cmd, DBCommand_Record cmd)) <$>
      completions (processData cmds script).1 =
    (λ cmd, (Reference cmd, DBCommand_Record cmd)) <$> cmds.
Proof.
  intros Hcommit.
  destruct (processData_trace cmds script)
    as [(body & Hrun & Hbody & Hfirst)|(_ & _ & Hno)]; [|done].
  assert (Hcalls : completions (processData cmds script).1 = cmds).
  { rewrite Hrun. cbn [fst]. rewrite completions_app, Hbody. cbn [app].
    change (completions (EvBeginx Ok :: ?l)) with (completions l).
    rewrite completions_app, completions_execOk. cbn [app].
    change (completions (EvCommit Ok :: ?l)) with (completions l).
    apply completions_EvCompletion. }
  split_and!.
  - by exists body.
  - exact Hcalls.
  - by rewrite Hcalls.
Qed.

(** C3 on the scenario chunk, committed at the first attempt. *)
Lemma completion_after_commit_witness :
  EvCommit Ok ∈ (processData chunk3 [Ok; Ok; Ok; Ok; Ok]).1
  ∧ completions (processData chunk3 [Ok; Ok; Ok; Ok; Ok]).1 =
      [cmd_delete; cmd_insert; cmd_update].
Proof.
  assert (Hcommit : EvCommit Ok ∈ (processData chunk3 [Ok; Ok; Ok; Ok; Ok]).1).
  { change [Ok; Ok; Ok; Ok; Ok]
      with (Ok :: replicate (length chunk3) Ok ++ [Ok]).
    rewrite (processData_commits chunk3 []). cbn [fst].
    do 4 apply list_elem_of_further. apply list_elem_of_here. }
  split; [exact Hcommit|].
  destruct (completion_after_commit chunk3 [Ok; Ok; Ok; Ok; Ok] Hcommit)
    as (_ & Calls & _).
  exact Calls.
Defined.

(** C9.  Whenever the begin of a transaction fails, the next thing the writer
    does is the rollback through the transaction handle of that begin, which
    is nil: no wait comes in between, no retry follows, and the run ends in a
    panic on the nil handle.  *)
Theorem begin_failure_rollback_nil {ProtoValue GoValue Ref : Type}
    (cmds : list (DBCommand ProtoValue GoValue Ref)) (script : list Reply) :
  EvBeginx Fail ∈ (processData cmds script).1 →
  Beginx_handle Fail = TxNil
  ∧ ∃ body,
      processData cmds script =
        (body ++ [EvBeginx Fail; EvRollback (Beginx_handle Fail)], PanicNilTx)
      ∧ EvBeginx Fail ∉ body.
Proof.
  unfold processData.
  pose proof (writeLoop_run cmds (S (length script)) script) as Hrun.
  destruct (writeLoop (S (length script)) cmds script) as [evs out].
  cbn [fst snd] in Hrun. intros Hin. split; [done|].
  assert (Hloop : EvBeginx Fail ∈ evs).
  { destruct out; cbn [completeAll fst] in Hin; try done.
    apply elem_of_app in Hin as [Hin|Hin]; [done|].
    by apply list_elem_of_fmap in Hin as (cmd & ? & _). }
  destruct (LoopRun_begin_fail _ _ _ Hrun Hloop) as [-> (body & -> & Hbody)].
  by exists body.
Qed.

(** C9 on the scenario chunk: a first attempt fails at its second statement,
    and the begin of the second attempt fails. *)
Lemma begin_failure_rollback_nil_witness :
  let script := [Ok; Ok; Fail; Fail; Ok; Ok] in
  EvBeginx Fail ∈ (processData chunk3 script).1
  ∧ ∃ body,
      processData chunk3 script =
        (body ++ [EvBeginx Fail; EvRollback TxNil], PanicNilTx)
      ∧ EvBeginx Fail ∉ body.
Proof.
  intros script.
  assert (Hin : EvBeginx Fail ∈ (processData chunk3 script).1).
  { change (processData chunk3 script).1
      with ([EvBeginx Ok; EvNamedExec cmd_delete Ok; EvNamedExec cmd_insert Fail;
             EvRollback TxLive; EvAfter5s; EvBeginx (ProtoValue := SValue)
               (GoValue := SValue) (Ref := nat) Fail; EvRollback TxNil]).
    do 5 apply list_elem_of_further. apply list_elem_of_here. }
  split; [exact Hin|].
  exact (proj2 (begin_failure_rollback_nil chunk3 script Hin)).
Defined.

(** * Further properties of the translation *)

Section RecordDefinition.

Context {ProtoValue GoValue : Type}.
Variable GetValue : ProtoValue → GoValue.
Implicit Types (record : Record ProtoValue) (recordDef : RecordDef GoValue).
Implicit Types (fields : list (Field ProtoValue)) (field : Field ProtoValue).

Lemma scanInv_new : scanInv 0 (newRecordDef (GoValue := GoValue)).
Proof.
  unfold scanInv. cbn [newRecordDef Values ColumnDefs HasPrimary fmap list_fmap].
  split_and!.
  - intros k. rewrite lookup_empty. split.
    + by intros [? ?].
    + intros [[_ ?]|Hin]; [done | by apply elem_of_nil in Hin].
  - intros name Hin. by apply elem_of_nil in Hin.
  - constructor.
  - by rewrite map_size_empty.
Qed.

Lemma scanInv_step record recordDef n field :
  scanInv n recordDef →
  scanInv (S n) (scanField GetValue record recordDef n field).
Proof.
  intros (Hkeys & Hnames & Hdup & Hsize). rewrite scanField_eq.
  assert (Hfresh : valName n ∉ BindingName <$> ColumnDefs recordDef).
  { intros (i & Hi & Heq)%Hnames. apply valName_inj in Heq. lia. }
  destruct (decide (PrimaryKey record = Name field)) as [Hkey|Hother];
    unfold scanInv; cbn [Values ColumnDefs HasPrimary]; split_and!.
  - intros k. rewrite lookup_insert_is_Some', Hkeys.
    split; [intros [<-|[[-> _]|?]] | intros [[-> _]|?]]; auto.
  - intros name (i & Hi & ->)%Hnames. exists i. split; [lia | done].
  - done.
  - destruct (HasPrimary recordDef) eqn:Hhas.
    + rewrite map_size_insert_Some; [done|].
      apply Hkeys. by left.
    + rewrite map_size_insert_None; [lia|].
      apply eq_None_not_Some. rewrite Hkeys.
      intros [[_ ?]|(i & _ & Heq)%Hnames]; [done|].
      symmetry in Heq. by apply valName_not_primary in Heq.
  - intros k. rewrite lookup_insert_is_Some', Hkeys, fmap_app, elem_of_app.
    cbn [fmap list_fmap BindingName]. rewrite list_elem_of_singleton.
    split; [intros [<-|[?|?]] | intros [?|[?| ->]]]; auto.
  - intros name. rewrite fmap_app, elem_of_app.
    cbn [fmap list_fmap BindingName]. rewrite list_elem_of_singleton.
    intros [(i & Hi & ->)%Hnames| ->].
    + exists i. split; [lia | done].
    + exists n. split; [lia | done].
  - rewrite fmap_app. cbn [fmap list_fmap BindingName].
    apply NoDup_app. split_and!; [done | | apply NoDup_singleton].
    intros name Hin ->%list_elem_of_singleton. done.
  - rewrite map_size_insert_None.
    + rewrite length_app. cbn [length]. lia.
    + apply eq_None_not_Some. rewrite Hkeys.
      intros [[Heq _]|Hin]; [by apply valName_not_primary in Heq | done].
Qed.

(** The scan keeps its invariant, whatever the fields. *)
Lemma scanInv_scanFields record fields : ∀ n recordDef,
  scanInv n recordDef →
  scanInv (n + length fields) (scanFields GetValue record n fields recordDef).
Proof.
  induction fields as [|field fields IH]; intros n recordDef Hinv;
    cbn [scanFields length].
  - by rewrite Nat.add_0_r.
  - replace (n + S (length fields)) with (S n + length fields) by lia.
    apply IH. by apply scanInv_step.
Qed.

(** Every field is either named as the primary key or gets a column. *)
Lemma otherFields_keyFields_length pk fields : ∀ n,
  length (otherFields pk n fields) + length (keyFields pk fields) = length fields.
Proof.
  induction fields as [|field fields IH]; intros n; [done|].
  rewrite otherFields_cons. unfold keyFields. rewrite filter_cons.
  specialize (IH (S n)). unfold keyFields in IH.
  destruct (decide (pk = Name field)); cbn [app length]; lia.
Qed.

(** Some field bears the primary key. *)
Lemma keyFields_nonempty pk fields :
  keyFields pk fields ≠ [] ↔ ∃ field, field ∈ fields ∧ Name field = pk.
Proof.
  split.
  - intros Hsome. destruct (keyFields pk fields) as [|field l] eqn:Hl; [done|].
    assert (Hin : field ∈ keyFields pk fields) by (rewrite Hl; left).
    apply list_elem_of_filter in Hin as [Hname Hin]. by exists field.
  - intros (field & Hin & Hname) Hnil. rewrite keyFields_nil in Hnil.
    by apply (Hnil field).
Qed.

(** A definition that [GetDefinition] returns is the result of the scan. *)
Lemma GetDefinition_Some record recordDef :
  (GetDefinition GetValue record).1 = Some recordDef →
  recordDef = scanFields GetValue record 0 (Fields record) newRecordDef
  ∧ (GetDefinition GetValue record).2 = None.
Proof.
  rewrite GetDefinition_eq. destruct (_ && _); cbn [fst snd]; [done|].
  intros [= <-]. done.
Qed.

End RecordDefinition.

(** X1.  [GetDefinition] returns the error Not found primary key exactly when
    a primary key is named and no field bears its name, and then it returns
    no definition; otherwise it returns a definition and no error, and in it
    [HasPrimary] holds exactly when some field bears the key, with the key as
    [PrimaryColumn] (and the empty string when no field does). *)
Theorem GetDefinition_fails_iff {ProtoValue GoValue : Type}
    (GetValue : ProtoValue → GoValue) (record : Record ProtoValue) :
  ((GetDefinition GetValue record).2 = Some "Not found primary key" ↔
     PrimaryKey record ≠ EmptyString
     ∧ ∀ field, field ∈ Fields record → Name field ≠ PrimaryKey record)
  ∧ ((GetDefinition GetValue record).2 ≠ None →
     GetDefinition GetValue record = (None, Some "Not found primary key"))
  ∧ ((GetDefinition GetValue record).2 = None →
     ∃ recordDef,
       (GetDefinition GetValue record).1 = Some recordDef
       ∧ (HasPrimary recordDef = true ↔
            ∃ field, field ∈ Fields record ∧ Name field = PrimaryKey record)
       ∧ PrimaryColumn recordDef =
           if HasPrimary recordDef then PrimaryKey record else EmptyString).
Proof.
  assert (Hhas : ∀ recordDef,
    recordDef = scanFields GetValue record 0 (Fields record) newRecordDef →
    (HasPrimary recordDef = true ↔
       ∃ field, field ∈ Fields record ∧ Name field = PrimaryKey record)
    ∧ PrimaryColumn recordDef =
        if HasPrimary recordDef then PrimaryKey record else EmptyString).
  { intros recordDef ->.
    rewrite scanFields_HasPrimary, scanFields_PrimaryColumn.
    cbn [HasPrimary PrimaryColumn newRecordDef orb].
    split; [|done]. etrans; [apply bool_decide_eq_true|].
    apply keyFields_nonempty. }
  rewrite GetDefinition_eq.
  destruct (bool_decide (PrimaryKey record ≠ EmptyString)) eqn:Hnamed;
    destruct (bool_decide (keyFields (PrimaryKey record) (Fields record) = []))
      eqn:Hnone; cbn [andb fst snd].
  - apply bool_decide_eq_true in Hnamed, Hnone. split_and!.
    + split; [|done]. intros _. split; [done | by apply keyFields_nil].
    + done.
    + done.
  - apply bool_decide_eq_false in Hnone. split_and!.
    + split; [done|]. intros [_ Hall]. by apply keyFields_nil in Hall.
    + done.
    + intros _. eexists. split; [reflexivity | by apply Hhas].
  - apply bool_decide_eq_false in Hnamed. split_and!.
    + split; [done|]. by intros [? _].
    + done.
    + intros _. eexists. split; [reflexivity | by apply Hhas].
  - apply bool_decide_eq_false in Hnamed. split_and!.
    + split; [done|]. by intros [? _].
    + done.
    + intros _. eexists. split; [reflexivity | by apply Hhas].
Qed.

(** X1 on an UPDATE of users keyed by id that carries the field name only. *)
Lemma GetDefinition_fails_iff_witness :
  let record := users_record Method_UPDATE [field_name] in
  (GetDefinition id record).2 ≠ None
  ∧ GetDefinition id record = (None, Some "Not found primary key").
Proof.
  intros record.
  assert (Herr : (GetDefinition id record).2 ≠ None) by (by vm_compute).
  split; [exact Herr|].
  destruct (GetDefinition_fails_iff id record) as (_ & Failed & _).
  exact (Failed Herr).
Defined.

(** X2.  In a definition that [GetDefinition] returns, the binding names of
    the column definitions are pairwise distinct, and none of them is the
    reserved name [primary_val]. *)
Theorem binding_names_unique {ProtoValue GoValue : Type}
    (GetValue : ProtoValue → GoValue) (record : Record ProtoValue)
    (recordDef : RecordDef GoValue) :
  (GetDefinition GetValue record).1 = Some recordDef →
  NoDup ("primary_val" :: (BindingName <$> ColumnDefs recordDef)).
Proof.
  intros [-> _]%GetDefinition_Some.
  destruct (scanInv_scanFields GetValue record (Fields record) 0 newRecordDef
              scanInv_new) as (_ & Hnames & Hdup & _).
  constructor; [|done].
  intros (i & _ & Heq)%Hnames. symmetry in Heq.
  by apply valName_not_primary in Heq.
Qed.

(** X2 on the scenario record INSERT users, key id, fields id=7, name=ann. *)
Lemma binding_names_unique_witness :
  let record := users_record Method_INSERT [field_id; field_name] in
  let recordDef := scanFields id record 0 (Fields record) newRecordDef in
  (GetDefinition id record).1 = Some recordDef
  ∧ NoDup ("primary_val" :: (BindingName <$> ColumnDefs recordDef)).
Proof.
  intros record recordDef.
  assert (Hdef : (GetDefinition id record).1 = Some recordDef) by reflexivity.
  split; [exact Hdef|].
  exact (binding_names_unique id record recordDef Hdef).
Defined.

(** X3.  In a definition that [GetDefinition] returns, the arguments and the
    placeholders agree: a name is bound in [Values] exactly when it is
    [primary_val] and a primary key was found, or it is the binding name of a
    column definition.  There are as many bindings as column definitions, plus
    one when a primary key was found, and every field of the record is either
    named as the primary key or has a column definition. *)
Theorem args_match_placeholders {ProtoValue GoValue : Type}
    (GetValue : ProtoValue → GoValue) (record : Record ProtoValue)
    (recordDef : RecordDef GoValue) :
  (GetDefinition GetValue record).1 = Some recordDef →
  (∀ k, is_Some (Values recordDef !! k) ↔
        (k = "primary_val" ∧ HasPrimary recordDef = true)
        ∨ k ∈ BindingName <$> ColumnDefs recordDef)
  ∧ size (Values recordDef) =
      length (ColumnDefs recordDef) + (if HasPrimary recordDef then 1 else 0)
  ∧ length (ColumnDefs recordDef)
    + length (keyFields (PrimaryKey record) (Fields record))
    = length (Fields record).
Proof.
  intros [-> _]%GetDefinition_Some.
  destruct (scanInv_scanFields GetValue record (Fields record) 0 newRecordDef
              scanInv_new) as (Hkeys & _ & _ & Hsize).
  split_and!; [done | done |].
  rewrite scanFields_ColumnDefs. cbn [ColumnDefs newRecordDef app].
  rewrite length_map. apply otherFields_keyFields_length.
Qed.

(** X3 on the scenario record: two bindings, one column, one key field. *)
Lemma args_match_placeholders_witness :
  let record := users_record Method_INSERT [field_id; field_name] in
  let recordDef := scanFields id record 0 (Fields record) newRecordDef in
  (GetDefinition id record).1 = Some recordDef
  ∧ size (Values recordDef) = 2.
Proof.
  intros record recordDef.
  assert (Hdef : (GetDefinition id record).1 = Some recordDef) by reflexivity.
  split; [exact Hdef|].
  destruct (args_match_placeholders id record recordDef Hdef) as (_ & Size & _).
  rewrite Size. reflexivity.
Defined.

Section RecordOutcomes.

Context {ProtoValue GoValue Ref : Type}.
Variable GetValue : ProtoValue → GoValue.
Implicit Types (record : Record ProtoValue) (recordDef : RecordDef GoValue).
Implicit Types (fields : list (Field ProtoValue)) (field : Field ProtoValue).
Implicit Types (reference : Ref).
Implicit Types (queue : list (DBCommand ProtoValue GoValue Ref)).

(** The loop of [DeleteRecord] sends the command of the first field named as
    the primary key, if there is one. *)
Lemma deleteScan_head reference record fields queue :
  deleteScan GetValue reference record fields queue =
    match head (keyFields (PrimaryKey record) fields) with
    | Some field => queue ++ [deleteCommand GetValue reference record field]
    | None => queue
    end.
Proof.
  induction fields as [|field fields IH]; cbn [deleteScan]; [done|].
  unfold keyFields. rewrite filter_cons.
  destruct (decide (PrimaryKey record = Name field)); [|exact IH].
  cbn [head]. unfold send, deleteCommand. by rewrite Sprintf_DeleteTemplate.
Qed.

Lemma DeleteRecord_eq reference record queue :
  DeleteRecord GetValue reference record queue =
    (None,
     if decide (PrimaryKey record = EmptyString) then queue
     else match head (keyFields (PrimaryKey record) (Fields record)) with
          | Some field => queue ++ [deleteCommand GetValue reference record field]
          | None => queue
          end).
Proof.
  unfold DeleteRecord. destruct (decide _); [done|]. by rewrite deleteScan_head.
Qed.

(** The SET list of [update], in terms of the fields. *)
Lemma update_SET record :
  map (λ def, dq +:+ ColumnName def +:+ dq +:+ " = :" +:+ BindingName def)
      (ColumnDefs (scanFields GetValue record 0 (Fields record) newRecordDef)) =
  map (λ p, quoted (Name p.2) +:+ " = :" +:+ valName p.1)
      (otherFields (PrimaryKey record) 0 (Fields record)).
Proof.
  rewrite scanFields_ColumnDefs. cbn [ColumnDefs newRecordDef app].
  rewrite map_map. apply map_ext. intros p. cbn [ColumnName BindingName].
  by rewrite quoted_append.
Qed.

Lemma UpdateRecord_eq reference record queue :
  UpdateRecord GetValue reference record queue =
    if decide (keyFields (PrimaryKey record) (Fields record) = []) then
      (if decide (PrimaryKey record = EmptyString) then None
       else Some "Not found primary key", queue)
    else (None, queue ++ [updateCommand GetValue reference record]).
Proof.
  unfold UpdateRecord. rewrite GetDefinition_eq.
  destruct (decide (keyFields (PrimaryKey record) (Fields record) = []))
    as [Hnone|Hsome].
  - rewrite (bool_decide_true _ Hnone), andb_true_r.
    destruct (decide (PrimaryKey record = EmptyString)) as [Hempty|Hnamed].
    + rewrite bool_decide_false by (intros H; by apply H).
      rewrite scanFields_HasPrimary. cbn [HasPrimary newRecordDef orb].
      by rewrite bool_decide_false by (intros H; by apply H).
    + by rewrite bool_decide_true.
  - rewrite (bool_decide_false _ Hsome), andb_false_r.
    rewrite scanFields_HasPrimary. cbn [HasPrimary newRecordDef orb].
    rewrite bool_decide_true by done. cbn [negb].
    unfold update, send, updateCommand. cbv zeta.
    rewrite Sprintf_UpdateTemplate, update_SET, scanFields_PrimaryColumn.
    by rewrite bool_decide_true.
Qed.

(** [insert] leaves the queue as it is and adds one command, which carries
    the reference, the record and the bindings of the definition. *)
Lemma insert_eq reference record table recordDef queue :
  ∃ cmd,
    insert reference record table recordDef queue = (None, queue ++ [cmd])
    ∧ insert reference record table recordDef [] = (None, [cmd])
    ∧ Reference cmd = reference ∧ DBCommand_Record cmd = record
    ∧ Args cmd = Values recordDef.
Proof. unfold insert, send. cbv zeta. eexists. by split_and!. Qed.

Lemma InsertRecord_eq reference record queue :
  ∃ cmd,
    Reference cmd = reference ∧ DBCommand_Record cmd = record
    ∧ Args cmd = Values (scanFields GetValue record 0 (Fields record) newRecordDef)
    ∧ ∀ queue,
        InsertRecord GetValue reference record queue =
          if bool_decide (PrimaryKey record ≠ EmptyString)
             && bool_decide (keyFields (PrimaryKey record) (Fields record) = [])
          then (Some "Not found primary key", queue)
          else (None, queue ++ [cmd]).
Proof.
  destruct (insert_eq reference record (Table record)
              (scanFields GetValue record 0 (Fields record) newRecordDef) [])
    as (cmd & _ & Hcmd & Href & Hrec & Hargs).
  exists cmd. split_and!; [done..|]. intros queue'.
  unfold InsertRecord. rewrite GetDefinition_eq.
  destruct (_ && _); [done|].
  unfold insert, send in *. cbv zeta in *. by injection Hcmd as <-.
Qed.

(** What one call of [ProcessData] returns and sends, method by method. *)
Lemma ProcessData_eq reference record :
  ∃ err new,
    (∀ queue, ProcessData GetValue reference record queue = (err, queue ++ new))
    ∧ length new ≤ 1
    ∧ (err ≠ None → new = [])
    ∧ Forall (λ cmd, Reference cmd = reference ∧ DBCommand_Record cmd = record) new
    ∧ (err = if usesGetDefinition (Method_ record)
                && bool_decide (PrimaryKey record ≠ EmptyString)
                && bool_decide (keyFields (PrimaryKey record) (Fields record) = [])
             then Some "Not found primary key" else None).
Proof.
  unfold ProcessData. destruct (Method_ record) eqn:Hmethod;
    cbn [usesGetDefinition andb].
  - destruct (InsertRecord_eq reference record []) as (cmd & Href & Hrec & _ & Heq).
    destruct (bool_decide (PrimaryKey record ≠ EmptyString)
              && bool_decide (keyFields (PrimaryKey record) (Fields record) = [])).
    + exists (Some "Not found primary key"), [].
      split_and!; [|cbn; lia|done|constructor|done].
      intros queue. by rewrite Heq, app_nil_r.
    + exists None, [cmd].
      split_and!; [|cbn; lia|done|by repeat constructor|done].
      intros queue. by rewrite Heq.
  - destruct (decide (keyFields (PrimaryKey record) (Fields record) = []))
      as [Hnone|Hsome].
    + rewrite (bool_decide_true _ Hnone), andb_true_r.
      destruct (decide (PrimaryKey record = EmptyString)) as [Hempty|Hnamed].
      * exists None, []. rewrite bool_decide_false by (intros H; by apply H).
        split_and!; [|cbn; lia|done|constructor|done].
        intros queue. rewrite UpdateRecord_eq, decide_True, decide_True by done.
        by rewrite app_nil_r.
      * exists (Some "Not found primary key"), []. rewrite bool_decide_true by done.
        split_and!; [|cbn; lia|done|constructor|done].
        intros queue. rewrite UpdateRecord_eq, decide_True, decide_False by done.
        by rewrite app_nil_r.
    + rewrite (bool_decide_false _ Hsome), andb_false_r.
      exists None, [updateCommand GetValue reference record].
      split_and!; [|cbn; lia|done|by repeat constructor|done].
      intros queue. by rewrite UpdateRecord_eq, decide_False.
  - destruct (decide (PrimaryKey record = EmptyString)) as [Hempty|Hnamed].
    + exists None, []. split_and!; [|cbn; lia|done|constructor|done].
      intros queue. rewrite DeleteRecord_eq, decide_True by done.
      by rewrite app_nil_r.
    + destruct (head (keyFields (PrimaryKey record) (Fields record)))
        as [field|] eqn:Hhead.
      * exists None, [deleteCommand GetValue reference record field].
        split_and!; [|cbn; lia|done|by repeat constructor|done].
        intros queue. by rewrite DeleteRecord_eq, decide_False, Hhead.
      * exists None, []. split_and!; [|cbn; lia|done|constructor|done].
        intros queue. rewrite DeleteRecord_eq, decide_False, Hhead by done.
        by rewrite app_nil_r.
  - exists None, []. split_and!; [|cbn; lia|done|constructor|done].
    intros queue. by rewrite app_nil_r.
Qed.

End RecordOutcomes.

(** X4.  For every UPDATE record: when no field bears the primary key nothing
    is sent, with the error Not found primary key if a key is named and no
    error if the key is empty; when some field bears the key, exactly one
    command is sent and no error is returned.  The command reads
    UPDATE table SET col = :val_n, ... WHERE key = :primary_val (identifiers in
    double quotes), with the other fields in field order, each under the name
    of its index, and carries all the bindings of the definition. *)
Theorem update_outcomes {ProtoValue GoValue Ref : Type}
    (GetValue : ProtoValue → GoValue) (reference : Ref)
    (record : Record ProtoValue)
    (queue : list (DBCommand ProtoValue GoValue Ref)) :
  Method_ record = Method_UPDATE →
  ProcessData GetValue reference record queue =
    if decide (keyFields (PrimaryKey record) (Fields record) = []) then
      (if decide (PrimaryKey record = EmptyString) then None
       else Some "Not found primary key", queue)
    else (None, queue ++ [updateCommand GetValue reference record]).
Proof.
  intros Hmethod. unfold ProcessData. rewrite Hmethod. apply UpdateRecord_eq.
Qed.

(** X4 on the scenario record UPDATE users, key id, fields id=7, name=ann. *)
Lemma update_outcomes_witness :
  Method_ (DBCommand_Record cmd_update) = Method_UPDATE
  ∧ ProcessData id 2 (DBCommand_Record cmd_update) [] = (None, [cmd_update]).
Proof.
  split; [reflexivity|].
  rewrite (update_outcomes id 2 (DBCommand_Record cmd_update) [] eq_refl).
  by vm_compute.
Defined.

(** X5.  For every DELETE record, no error is returned.  Nothing is sent when
    the primary key is empty or no field bears it; otherwise exactly one
    command is sent, built on the first field that bears the key. *)
Theorem delete_outcome {ProtoValue GoValue Ref : Type}
    (GetValue : ProtoValue → GoValue) (reference : Ref)
    (record : Record ProtoValue)
    (queue : list (DBCommand ProtoValue GoValue Ref)) :
  Method_ record = Method_DELETE →
  ProcessData GetValue reference record queue =
    (None,
     if decide (PrimaryKey record = EmptyString) then queue
     else match head (keyFields (PrimaryKey record) (Fields record)) with
          | Some field => queue ++ [deleteCommand GetValue reference record field]
          | None => queue
          end).
Proof.
  intros Hmethod. unfold ProcessData. rewrite Hmethod. apply DeleteRecord_eq.
Qed.

(** X5 on a DELETE of users keyed by id with the fields name=ann, id=7,
    id=8: the command is built on id=7. *)
Lemma delete_outcome_witness :
  let record := users_record Method_DELETE [field_name; field_id; field_id8] in
  Method_ record = Method_DELETE
  ∧ ProcessData (Ref := nat) id 0 record [] =
      (None, [deleteCommand id 0 record field_id]).
Proof.
  intros record. split; [reflexivity|].
  rewrite (delete_outcome id 0 record [] eq_refl). reflexivity.
Defined.

(** X6.  One call of [ProcessData] leaves the commands already queued as they
    are and in their order, and adds at most one command behind them; what it
    returns and adds does not depend on the queue.  When it returns an error
    it adds nothing.  A command it adds carries the reference and the record
    of the call. *)
Theorem ProcessData_frame {ProtoValue GoValue Ref : Type}
    (GetValue : ProtoValue → GoValue) (reference : Ref)
    (record : Record ProtoValue) :
  let err := (ProcessData (Ref := Ref) GetValue reference record []).1 in
  let new := (ProcessData GetValue reference record []).2 in
  (∀ queue, ProcessData GetValue reference record queue = (err, queue ++ new))
  ∧ length new ≤ 1
  ∧ (err ≠ None → new = [])
  ∧ Forall (λ cmd, Reference cmd = reference ∧ DBCommand_Record cmd = record) new.
Proof.
  destruct (ProcessData_eq GetValue reference record)
    as (err & new & Heq & Hlen & Herr & Hall & _).
  cbv zeta. rewrite (Heq []). cbn [fst snd app]. by split_and!.
Qed.

(** X6 on an UPDATE of users keyed by id that carries the field name only:
    the call fails and the queue is left as it was. *)
Lemma ProcessData_frame_witness :
  let record := users_record Method_UPDATE [field_name] in
  (ProcessData (Ref := nat) id 0 record []).1 ≠ None
  ∧ ProcessData id 0 record chunk3 = (Some "Not found primary key", chunk3).
Proof.
  intros record.
  assert (Herr : (ProcessData (Ref := nat) id 0 record []).1 ≠ None)
    by (by vm_compute).
  split; [exact Herr|].
  destruct (ProcessData_frame (Ref := nat) id 0 record)
    as (Frame & _ & Nothing & _).
  rewrite (Frame chunk3), (Nothing Herr). by rewrite app_nil_r.
Defined.

(** X7.  Every command sent for an UPDATE or a DELETE binds [primary_val],
    and binds it to the value of a field of the record that bears the
    primary key. *)
Theorem where_clause_bound {ProtoValue GoValue Ref : Type}
    (GetValue : ProtoValue → GoValue) (reference : Ref)
    (record : Record ProtoValue) (cmd : DBCommand ProtoValue GoValue Ref) :
  Method_ record = Method_UPDATE ∨ Method_ record = Method_DELETE →
  cmd ∈ (ProcessData GetValue reference record []).2 →
  ∃ field, field ∈ Fields record ∧ Name field = PrimaryKey record
           ∧ Args cmd !! "primary_val" = Some (GetValue (Value field)).
Proof.
  intros [Hmethod|Hmethod]; unfold ProcessData; rewrite Hmethod.
  - rewrite UpdateRecord_eq. destruct (decide _) as [Hnone|Hsome]; cbn [snd app].
    + by intros ?%elem_of_nil.
    + intros ->%list_elem_of_singleton. cbn [updateCommand Args].
      rewrite scanFields_primary_val.
      apply last_is_Some in Hsome as [field Hlast]. rewrite Hlast.
      apply last_Some_elem_of, list_elem_of_filter in Hlast as [Hname Hin].
      by exists field.
  - rewrite DeleteRecord_eq. cbn [snd].
    destruct (decide _); [by intros ?%elem_of_nil|].
    destruct (head _) as [field|] eqn:Hhead; cbn [app];
      [|by intros ?%elem_of_nil].
    intros ->%list_elem_of_singleton. cbn [deleteCommand Args].
    apply head_Some_elem_of, list_elem_of_filter in Hhead as [Hname Hin].
    exists field. by rewrite lookup_singleton_eq.
Qed.

(** X7 on the scenario record UPDATE users, key id, fields id=7, name=ann. *)
Lemma where_clause_bound_witness :
  let record := DBCommand_Record cmd_update in
  (Method_ record = Method_UPDATE ∨ Method_ record = Method_DELETE)
  ∧ cmd_update ∈ (ProcessData id 2 record []).2
  ∧ ∃ field, field ∈ Fields record ∧ Name field = PrimaryKey record
             ∧ Args cmd_update !! "primary_val" = Some (Value field).
Proof.
  intros record.
  assert (Hmethod : Method_ record = Method_UPDATE ∨ Method_ record = Method_DELETE)
    by (left; reflexivity).
  assert (Hsent : cmd_update ∈ (ProcessData id 2 record []).2).
  { change (ProcessData id 2 record []).2 with [cmd_update]. left. }
  split; [exact Hmethod|]. split; [exact Hsent|].
  exact (where_clause_bound id 2 record cmd_update Hmethod Hsent).
Defined.

(** X8.  When several fields bear the primary key, the paths disagree on the
    one that counts: the command of a DELETE binds [primary_val] to the value
    of the first of them, the commands of an UPDATE and of an INSERT to the
    value of the last. *)
Theorem key_field_first_or_last {ProtoValue GoValue Ref : Type}
    (GetValue : ProtoValue → GoValue) (reference : Ref)
    (record : Record ProtoValue) (first_ last_ : Field ProtoValue) :
  PrimaryKey record ≠ EmptyString →
  head (keyFields (PrimaryKey record) (Fields record)) = Some first_ →
  last (keyFields (PrimaryKey record) (Fields record)) = Some last_ →
  let bound (m : Method) :=
    (λ cmd, Args cmd !! "primary_val") <$>
      (ProcessData (Ref := Ref) GetValue reference (withMethod m record) []).2 in
  bound Method_DELETE = [Some (GetValue (Value first_))]
  ∧ bound Method_UPDATE = [Some (GetValue (Value last_))]
  ∧ bound Method_INSERT = [Some (GetValue (Value last_))].
Proof.
  intros Hnamed Hhead Hlast bound. subst bound. cbv beta.
  assert (Hsome : keyFields (PrimaryKey record) (Fields record) ≠ []).
  { intros Hnil. by rewrite Hnil in Hhead. }
  unfold ProcessData. cbn [withMethod Method_]. split_and!.
  - rewrite DeleteRecord_eq. cbn [withMethod PrimaryKey Fields snd].
    rewrite decide_False by done. rewrite Hhead. cbn [app fmap list_fmap].
    cbn [deleteCommand Args]. by rewrite lookup_singleton_eq.
  - rewrite UpdateRecord_eq. cbn [withMethod PrimaryKey Fields].
    rewrite decide_False by done. cbn [snd app fmap list_fmap].
    cbn [updateCommand Args]. rewrite scanFields_primary_val.
    cbn [withMethod PrimaryKey Fields]. by rewrite Hlast.
  - destruct (InsertRecord_eq GetValue reference
                (withMethod Method_INSERT record) [])
      as (cmd & _ & _ & Hargs & Heq).
    rewrite Heq. cbn [withMethod PrimaryKey Fields].
    rewrite (bool_decide_false _ Hsome), andb_false_r.
    cbn [snd app fmap list_fmap]. rewrite Hargs, scanFields_primary_val.
    cbn [withMethod PrimaryKey Fields]. by rewrite Hlast.
Qed.

(** X8 on users keyed by id with the fields id=7, name=ann, id=8. *)
Lemma key_field_first_or_last_witness :
  let record := users_record Method_DELETE [field_id; field_name; field_id8] in
  PrimaryKey record ≠ EmptyString
  ∧ head (keyFields (PrimaryKey record) (Fields record)) = Some field_id
  ∧ last (keyFields (PrimaryKey record) (Fields record)) = Some field_id8
  ∧ (λ cmd, Args cmd !! "primary_val") <$>
      (ProcessData (Ref := nat) id 0 (withMethod Method_DELETE record) []).2
    = [Some (SInt 7)]
  ∧ (λ cmd, Args cmd !! "primary_val") <$>
      (ProcessData (Ref := nat) id 0 (withMethod Method_UPDATE record) []).2
    = [Some (SInt 8)].
Proof.
  intros record.
  assert (Hnamed : PrimaryKey record ≠ EmptyString) by (by vm_compute).
  assert (Hhead : head (keyFields (PrimaryKey record) (Fields record))
                  = Some field_id) by reflexivity.
  assert (Hlast : last (keyFields (PrimaryKey record) (Fields record))
                  = Some field_id8) by reflexivity.
  destruct (key_field_first_or_last (Ref := nat) id 0 record field_id field_id8
              Hnamed Hhead Hlast) as (Delete & Update & _).
  by split_and!.
Defined.



(** * Further properties of the batch writer *)

Section Traces.

Context {ProtoValue GoValue Ref : Type}.
Implicit Types (cmds pre post : list (DBCommand ProtoValue GoValue Ref)).
Implicit Types (cmd : DBCommand ProtoValue GoValue Ref).
Implicit Types (script rest : list Reply).
Implicit Types (evs : list (Event ProtoValue GoValue Ref)).
Implicit Types (test : Event ProtoValue GoValue Ref → bool).

Lemma countEvents_app test evs evs' :
  countEvents test (evs ++ evs') = countEvents test evs + countEvents test evs'.
Proof. unfold countEvents. by rewrite List.filter_app, length_app. Qed.

(** Statements that go through are neither failures, rollbacks, waits nor
    commits. *)
Lemma countEvents_execOk test cmds :
  (∀ cmd, test (EvNamedExec cmd Ok) = false) →
  countEvents test (execOk cmds) = 0.
Proof.
  intros Htest. induction cmds as [|c cmds IH]; [done|].
  unfold countEvents in *. cbn [execOk map List.filter].
  rewrite Htest. exact IH.
Qed.

Lemma countEvents_completions test cmds :
  (∀ cmd, test (EvCompletion cmd) = false) →
  countEvents test (map EvCompletion cmds) = 0.
Proof.
  intros Htest. induction cmds as [|c cmds IH]; [done|].
  unfold countEvents in *. cbn [map List.filter].
  rewrite Htest. exact IH.
Qed.

(** A failed attempt with its rollback and wait: one failure, one rollback,
    one wait, no successful commit. *)
Lemma FailedAttempt_counts cmds replies evs :
  FailedAttempt cmds replies evs →
  countEvents isFailure (evs ++ [EvRollback TxLive; EvAfter5s]) = 1
  ∧ countEvents isRollback (evs ++ [EvRollback TxLive; EvAfter5s]) = 1
  ∧ countEvents isAfter5s (evs ++ [EvRollback TxLive; EvAfter5s]) = 1
  ∧ countEvents isCommitOk (evs ++ [EvRollback TxLive; EvAfter5s]) = 0.
Proof.
  intros [pre cmd post _|]; split_and!;
    rewrite countEvents_app;
    change (EvBeginx Ok :: ?l) with ([EvBeginx (ProtoValue := ProtoValue)
      (GoValue := GoValue) (Ref := Ref) Ok] ++ l);
    rewrite !countEvents_app, countEvents_execOk by done; reflexivity.
Qed.

Lemma LoopRun_counts cmds evs out :
  LoopRun cmds evs out →
  countEvents isFailure evs = countEvents isRollback evs
  ∧ countEvents isFailure evs = countEvents isAfter5s evs
  ∧ countEvents isCommitOk evs = match out with Returned => 1 | _ => 0 end.
Proof.
  induction 1 as [| | |pre post _| |replies evs rest out Hfail _ IH].
  - done.
  - done.
  - done.
  - change (EvBeginx Ok :: ?l) with ([EvBeginx (ProtoValue := ProtoValue)
      (GoValue := GoValue) (Ref := Ref) Ok] ++ l).
    rewrite !countEvents_app, !countEvents_execOk by done. done.
  - change (EvBeginx Ok :: ?l) with ([EvBeginx (ProtoValue := ProtoValue)
      (GoValue := GoValue) (Ref := Ref) Ok] ++ l).
    rewrite !countEvents_app, !countEvents_execOk by done. done.
  - destruct (FailedAttempt_counts _ _ _ Hfail) as (Hf & Hr & Ha & Hc).
    destruct IH as (IHr & IHa & IHc).
    rewrite app_assoc.
    rewrite !(countEvents_app _ (evs ++ [EvRollback TxLive; EvAfter5s]) rest).
    rewrite Hf, Hr, Ha, Hc. destruct out; lia.
Qed.

(** The loop panics only at a failed begin. *)
Lemma LoopRun_panic cmds evs out :
  LoopRun cmds evs out → out = PanicNilTx → EvBeginx Fail ∈ evs.
Proof.
  induction 1 as [| | |pre post _| |replies evs rest out Hfail _ IH];
    intros Hout; try done.
  - left.
  - rewrite app_assoc, elem_of_app. right. by apply IH.
Qed.

(** The loop executes commands of its chunk only. *)
Lemma LoopRun_commands cmds evs out :
  LoopRun cmds evs out →
  Forall (λ e, ∀ cmd, eventCommand e = Some cmd → cmd ∈ cmds) evs.
Proof.
  assert (Hexec : ∀ pre, (∀ cmd, cmd ∈ pre → cmd ∈ cmds) →
    Forall (λ e, ∀ cmd, eventCommand e = Some cmd → cmd ∈ cmds) (execOk pre)).
  { intros pre Hpre. unfold execOk. apply Forall_fmap, Forall_forall.
    intros c Hc cmd [= <-]. by apply Hpre. }
  induction 1 as [| | |pre post ->| |replies evs rest out Hfail _ IH].
  - constructor.
  - constructor.
  - by repeat constructor.
  - constructor; [done|]. apply Hexec. intros cmd Hin.
    apply elem_of_app. by left.
  - constructor; [done|]. apply Forall_app. split; [by apply Hexec|].
    by repeat constructor.
  - rewrite app_assoc. apply Forall_app. split; [|done].
    apply Forall_app. split; [|by repeat constructor].
    destruct Hfail as [pre cmd post ->|].
    + constructor; [done|]. apply Forall_app. split.
      * apply Hexec. intros c Hin. apply elem_of_app. by left.
      * constructor; [|constructor]. intros c [= <-].
        apply elem_of_app. right. left.
    + constructor; [done|]. apply Forall_app. split; [by apply Hexec|].
      by repeat constructor.
Qed.

(** The completion calls and the successful commits of a run. *)
Lemma processData_completions cmds script :
  completions (processData cmds script).1 =
    match (processData cmds script).2 with Returned => cmds | _ => [] end
  ∧ countEvents isCommitOk (processData cmds script).1 =
    match (processData cmds script).2 with Returned => 1 | _ => 0 end.
Proof.
  unfold processData.
  pose proof (writeLoop_run cmds (S (length script)) script) as Hrun.
  destruct (writeLoop (S (length script)) cmds script) as [evs out].
  cbn [fst snd] in Hrun.
  pose proof (LoopRun_completions _ _ _ Hrun) as Hquiet.
  destruct (LoopRun_counts _ _ _ Hrun) as (_ & _ & Hcommit).
  destruct out; cbn [completeAll fst snd]; try done.
  split.
  - by rewrite completions_app, Hquiet, completions_EvCompletion.
  - by rewrite countEvents_app, Hcommit, countEvents_completions.
Qed.

Lemma foldl_snoc_all cmds : ∀ acc,
  foldl (λ acc req, acc ++ [req]) acc cmds = acc ++ cmds.
Proof.
  induction cmds as [|c cmds IH]; intros acc; cbn [foldl].
  - by rewrite app_nil_r.
  - by rewrite IH, <- app_assoc.
Qed.

End Traces.

(** X10.  [chunkHandler] hands the whole chunk to [processData], every
    command, in the order of the chunk. *)
Theorem chunkHandler_whole_chunk {ProtoValue GoValue Ref : Type}
    (chunk : list (DBCommand ProtoValue GoValue Ref)) (script : list Reply) :
  chunkHandler chunk script = processData chunk script.
Proof. unfold chunkHandler. cbv zeta. by rewrite foldl_snoc_all. Qed.

(** X11.  The writer retries without a limit: after any number of failing
    attempts, each ended by a statement error or a commit error, an attempt
    that the database accepts makes the run return.  The trace is the failed
    attempts in turn, each followed by its rollback and wait, then the
    accepted attempt on the whole chunk, its commit, and the completion call
    of every command. *)
Theorem retry_until_success {ProtoValue GoValue Ref : Type}
    (cmds : list (DBCommand ProtoValue GoValue Ref))
    (attempts : list (list Reply * list (Event ProtoValue GoValue Ref)))
    (rest : list Reply) :
  Forall (λ a, FailedAttempt cmds a.1 a.2) attempts →
  processData cmds
    (concat (fst <$> attempts) ++ Ok :: replicate (length cmds) Ok ++ Ok :: rest) =
  (concat ((λ a, a.2 ++ [EvRollback TxLive; EvAfter5s]) <$> attempts) ++
   EvBeginx Ok :: execOk cmds ++ EvCommit Ok :: map EvCompletion cmds,
   Returned).
Proof.
  induction 1 as [|[replies evs] attempts Hfail _ IH];
    cbn [fmap list_fmap concat app fst snd].
  - apply processData_commits.
  - rewrite <- app_assoc, (processData_retry _ _ _ _ Hfail), IH.
    unfold prepend. cbn [fst snd]. f_equal. by rewrite <- ?app_assoc.
Qed.

(** X11 on the scenario chunk: the second statement fails, then the commit
    fails, then the database accepts the attempt. *)
Lemma retry_until_success_witness :
  let attempts :=
    [ ([Ok; Ok; Fail],
       EvBeginx Ok :: execOk [cmd_delete] ++ [EvNamedExec cmd_insert Fail]);
      ([Ok; Ok; Ok; Ok; Fail],
       EvBeginx Ok :: execOk chunk3 ++ [EvCommit Fail]) ] in
  Forall (λ a, FailedAttempt chunk3 a.1 a.2) attempts
  ∧ (processData chunk3
       ([Ok; Ok; Fail] ++ [Ok; Ok; Ok; Ok; Fail] ++ [Ok; Ok; Ok; Ok; Ok])).2
    = Returned
  ∧ completions
      (processData chunk3
         ([Ok; Ok; Fail] ++ [Ok; Ok; Ok; Ok; Fail] ++ [Ok; Ok; Ok; Ok; Ok])).1
    = chunk3.
Proof.
  intros attempts.
  assert (Hfailed : Forall (λ a, FailedAttempt chunk3 a.1 a.2) attempts).
  { constructor; [|constructor; [|constructor]].
    - exact (exec_error chunk3 [cmd_delete] cmd_insert [cmd_update] eq_refl).
    - exact (commit_error chunk3). }
  split; [exact Hfailed|].
  pose proof (retry_until_success chunk3 attempts [] Hfailed) as Run.
  change (concat (fst <$> attempts) ++
            Ok :: replicate (length chunk3) Ok ++ [Ok])
    with ([Ok; Ok; Fail] ++ [Ok; Ok; Ok; Ok; Fail] ++ [Ok; Ok; Ok; Ok; Ok])
    in Run.
  rewrite Run. split; reflexivity.
Defined.

(** X12.  The completion calls of a run are all or nothing: a run that
    returns has called the handler on every command of the chunk, once each,
    in chunk order; a run that does not return has called it on none.  A run
    commits at most once, and exactly once when it returns. *)
Theorem completions_all_or_nothing {ProtoValue GoValue Ref : Type}
    (cmds : list (DBCommand ProtoValue GoValue Ref)) (script : list Reply) :
  completions (processData cmds script).1 =
    match (processData cmds script).2 with Returned => cmds | _ => [] end
  ∧ countEvents isCommitOk (processData cmds script).1 =
    match (processData cmds script).2 with Returned => 1 | _ => 0 end.
Proof. apply processData_completions. Qed.

(** X13.  How a run ends can be read off its trace: it returns exactly when
    a commit succeeded, it panics on the nil transaction handle exactly when
    a begin failed, and otherwise the database has stopped answering. *)
Theorem outcome_of_trace {ProtoValue GoValue Ref : Type}
    (cmds : list (DBCommand ProtoValue GoValue Ref)) (script : list Reply) :
  ((processData cmds script).2 = Returned ↔
     EvCommit Ok ∈ (processData cmds script).1)
  ∧ ((processData cmds script).2 = PanicNilTx ↔
       EvBeginx Fail ∈ (processData cmds script).1)
  ∧ ((processData cmds script).2 = Returned
     ∨ (processData cmds script).2 = PanicNilTx
     ∨ (processData cmds script).2 = NoReply).
Proof.
  pose proof (processData_never_out_of_fuel cmds script) as Hfuel.
  pose proof (processData_trace cmds script) as Htrace.
  revert Hfuel Htrace. unfold processData.
  pose proof (writeLoop_run cmds (S (length script)) script) as Hrun.
  destruct (writeLoop (S (length script)) cmds script) as [evs out].
  cbn [fst snd] in Hrun. intros Hfuel Htrace.
  assert (Hbegin : EvBeginx Fail ∈ (completeAll cmds (evs, out)).1 →
                   EvBeginx Fail ∈ evs).
  { destruct out; cbn [completeAll fst]; try done.
    intros [?|Hin]%elem_of_app; [done|].
    by apply list_elem_of_fmap in Hin as (cmd & ? & _). }
  split_and!.
  - split.
    + intros Hout. destruct Htrace as [(body & Heq & _)|[Hno _]]; [|done].
      rewrite Heq. cbn [fst]. rewrite elem_of_app, elem_of_cons, elem_of_app.
      right; right; right. left.
    + intros Hin. destruct Htrace as [(body & Heq & _)|(_ & _ & Hno)]; [|done].
      by rewrite Heq.
  - split.
    + intros Hout. destruct out; cbn [completeAll fst snd] in *; try done.
      by apply (LoopRun_panic _ _ _ Hrun).
    + intros Hin%Hbegin.
      destruct (LoopRun_begin_fail _ _ _ Hrun Hin) as [-> _]. done.
  - destruct out; cbn [completeAll snd] in *; auto. done.
Qed.

(** X13 on the scenario chunk: the begin of the second attempt fails. *)
Lemma outcome_of_trace_witness :
  let script := [Ok; Ok; Fail; Fail; Ok; Ok] in
  (processData chunk3 script).2 = PanicNilTx
  ∧ EvBeginx Fail ∈ (processData chunk3 script).1.
Proof.
  intros script.
  assert (Hout : (processData chunk3 script).2 = PanicNilTx) by reflexivity.
  split; [exact Hout|].
  destruct (outcome_of_trace chunk3 script) as (_ & Panic & _).
  exact (proj1 Panic Hout).
Defined.

(** X14.  The writer executes and completes commands of its chunk only:
    every statement it sends to the database, and every command it hands to
    the completion handler, is a command of the chunk. *)
Theorem only_chunk_commands {ProtoValue GoValue Ref : Type}
    (cmds : list (DBCommand ProtoValue GoValue Ref)) (script : list Reply)
    (e : Event ProtoValue GoValue Ref) (cmd : DBCommand ProtoValue GoValue Ref) :
  e ∈ (processData cmds script).1 →
  eventCommand e = Some cmd →
  cmd ∈ cmds.
Proof.
  unfold processData.
  pose proof (writeLoop_run cmds (S (length script)) script) as Hrun.
  destruct (writeLoop (S (length script)) cmds script) as [evs out].
  cbn [fst snd] in Hrun.
  pose proof (LoopRun_commands _ _ _ Hrun) as Hall.
  rewrite Forall_forall in Hall.
  assert (Hloop : e ∈ evs → eventCommand e = Some cmd → cmd ∈ cmds)
    by (intros Hin; by apply Hall).
  destruct out; cbn [completeAll fst]; try done.
  intros [Hin|Hin]%elem_of_app; [by apply Hloop|].
  apply list_elem_of_fmap in Hin as (c & -> & Hc). by intros [= <-].
Qed.

(** X14 on the scenario chunk, at the statement that fails. *)
Lemma only_chunk_commands_witness :
  let script := [Ok; Ok; Fail; Fail; Ok; Ok] in
  EvNamedExec cmd_insert Fail ∈ (processData chunk3 script).1
  ∧ eventCommand (EvNamedExec cmd_insert Fail) = Some cmd_insert
  ∧ cmd_insert ∈ chunk3.
Proof.
  intros script.
  assert (Hin : EvNamedExec cmd_insert Fail ∈ (processData chunk3 script).1).
  { change (processData chunk3 script).1
      with ([EvBeginx Ok; EvNamedExec cmd_delete Ok; EvNamedExec cmd_insert Fail;
             EvRollback TxLive; EvAfter5s; EvBeginx (ProtoValue := SValue)
               (GoValue := SValue) (Ref := nat) Fail; EvRollback TxNil]).
    do 2 apply list_elem_of_further. apply list_elem_of_here. }
  split; [exact Hin|]. split; [reflexivity|].
  exact (only_chunk_commands chunk3 script _ cmd_insert Hin eq_refl).
Defined.

(** X15.  Rollbacks and waits match the failures one to one: in every run,
    the number of statements and commits that the database refused, the
    number of rollbacks of a live transaction, and the number of waits of the
    retry delay are the same. *)
Theorem one_rollback_and_wait_per_failure {ProtoValue GoValue Ref : Type}
    (cmds : list (DBCommand ProtoValue GoValue Ref)) (script : list Reply) :
  countEvents isFailure (processData cmds script).1 =
    countEvents isRollback (processData cmds script).1
  ∧ countEvents isFailure (processData cmds script).1 =
    countEvents isAfter5s (processData cmds script).1.
Proof.
  unfold processData.
  pose proof (writeLoop_run cmds (S (length script)) script) as Hrun.
  destruct (writeLoop (S (length script)) cmds script) as [evs out].
  cbn [fst snd] in Hrun.
  destruct (LoopRun_counts _ _ _ Hrun) as (Hr & Ha & _).
  destruct out; cbn [completeAll fst]; try done.
  rewrite !countEvents_app, !countEvents_completions by done. lia.
Qed.

(** X16.  The completion handler acts on the application all or nothing.
    After [SetCompletionHandler], whatever was registered before, a run that
    returns has applied the new handler to every command of the chunk, once
    each and in chunk order, and a run that does not return has left the
    application as it was.  The handler of a fresh writer does nothing. *)
Theorem completion_handler_effect {ProtoValue GoValue Ref App : Type}
    (writer : Writer ProtoValue GoValue Ref App)
    (fn : DBCommand ProtoValue GoValue Ref → App → App)
    (cmds : list (DBCommand ProtoValue GoValue Ref)) (script : list Reply)
    (app : App) :
  handleCompletions (SetCompletionHandler fn writer) (processData cmds script) app =
    match (processData cmds script).2 with
    | Returned => foldl (λ app cmd, fn cmd app) app cmds
    | _ => app
    end
  ∧ handleCompletions NewWriter (processData cmds script) app = app.
Proof.
  unfold handleCompletions.
  destruct (processData_completions cmds script) as [-> _].
  split.
  - by destruct (processData cmds script).2.
  - cbn [NewWriter completionHandler].
    by induction (match (processData cmds script).2 with
                  | Returned => cmds | _ => [] end).
Qed.
